(** * FreeInit frequency filters and spectral mixing

    A shallow embedding of [animatediff/utils/freeinit_utils.py]:
    the four low-pass filter masks ([gaussian_low_pass_filter],
    [butterworth_low_pass_filter], [ideal_low_pass_filter],
    [box_low_pass_filter]), their dispatcher [get_freq_filter], and the
    spectral mixer [freq_mix_3d].

    Conventions of the embedding.
    - Python floats are idealised as real numbers ([R]): every arithmetic
      operation is exact, and [math.exp] is the real exponential.  Rounding
      error, overflow and the float32 storage of [torch.zeros] are outside
      the model.
    - A tensor is its shape (a list of non-negative sizes, as [torch.Size])
      together with its elements in row-major order.
    - Exceptions are values of [exn]; a function that can raise returns a
      [result]. *)

From Stdlib Require Import Reals Lra Lia ZArith.
From stdpp Require Import base option list strings.

(** ** Exceptions and the error monad *)

Inductive exn : Set :=
| NotImplementedError
| IndexError
| RuntimeError
| ZeroDivisionError.

Inductive result (A : Type) : Type :=
| Ok (a : A)
| Raise (e : exn).
Arguments Ok {A} a.
Arguments Raise {A} e.

#[global] Instance result_ret : MRet result := @Ok.
#[global] Instance result_bind : MBind result := λ A B f r,
  match r with
  | Ok a => f a
  | Raise e => Raise e
  end.

(** [o] if it is defined, otherwise raise [e]. *)
Definition or_raise {A} (e : exn) (o : option A) : result A :=
  match o with
  | Some a => Ok a
  | None => Raise e
  end.

(** [for i in l: s = body(i, s)], stopping at the first exception. *)
Fixpoint for_each {St} (l : list nat) (body : nat → St → result St) (s : St)
  : result St :=
  match l with
  | [] => Ok s
  | i :: l' => s' ← body i s; for_each l' body s'
  end.

(** [for i in range(n)]. *)
Definition for_range {St} (n : nat) (body : nat → St → result St) (s : St)
  : result St :=
  for_each (seq 0 n) body s.

(** ** Python numbers *)

(** Equality of reals is decided classically. *)
#[global] Instance R_eq_dec : EqDecision R := Req_dec_T.

(** A Python [int] used in float arithmetic. *)
Definition nR (n : nat) : R := IZR (Z.of_nat n).

(** True division [x / y]; a zero divisor raises. *)
Definition py_div (x y : R) : result R :=
  if decide (y = 0%R) then Raise ZeroDivisionError else Ok (x / y)%R.

(** Python 3 [round(x)]: to the nearest integer, ties to the even one. *)
Definition py_round (x : R) : Z :=
  let f := Zfloor x in
  let r := (x - IZR f)%R in
  if Rlt_dec r (1 / 2) then f
  else if Rlt_dec (1 / 2) r then (f + 1)%Z
  else if Z.even f then f else (f + 1)%Z.

(** Bound of a slice [start:stop] on an axis of length [n]: a negative
    bound counts from the end of the axis, and the result is clamped to
    [0, n] (CPython's [PySlice_AdjustIndices], step 1). *)
Definition adjust_index (i n : Z) : Z :=
  if (i <? 0)%Z then Z.max (i + n) 0 else Z.min i n.

(** Whether position [i] of an axis of length [n] is selected by the slice
    [start:stop]. *)
Definition in_slice (start stop : Z) (n i : nat) : bool :=
  bool_decide (adjust_index start (Z.of_nat n) ≤ Z.of_nat i)%Z
  && bool_decide (Z.of_nat i < adjust_index stop (Z.of_nat n))%Z.

(** ** Tensors *)

Record tensor (A : Type) : Type := Tensor {
  tshape : list nat;
  tdata : list A
}.
Arguments Tensor {A} tshape tdata.
Arguments tshape {A} t.
Arguments tdata {A} t.

(** Number of elements of a tensor of shape [s]. *)
Definition numel (s : list nat) : nat := foldr Nat.mul 1 s.

(** All multi-indices of shape [s], in row-major order. *)
Fixpoint indices (s : list nat) : list (list nat) :=
  match s with
  | [] => [[]]
  | d :: s' => i ← seq 0 d; (cons i) <$> indices s'
  end.

(** Row-major offset of the multi-index [idx] in shape [s]; [None] when
    the rank differs or a coordinate is out of range. *)
Fixpoint ravel (s idx : list nat) : option nat :=
  match s, idx with
  | [], [] => Some 0
  | d :: s', i :: idx' =>
      if decide (i < d) then (λ o, i * numel s' + o) <$> ravel s' idx'
      else None
  | _, _ => None
  end.

(** [m[idx]] for a full multi-index. *)
Definition tget {A} (m : tensor A) (idx : list nat) : option A :=
  ravel (tshape m) idx ≫= λ o, tdata m !! o.

(** The elements are as many as the shape says. *)
Definition wf {A} (m : tensor A) : Prop :=
  length (tdata m) = numel (tshape m).

(** The tensor of shape [s] whose element at [idx] is [f idx]. *)
Definition tabulate {A} (s : list nat) (f : list nat → A) : tensor A :=
  Tensor s (f <$> indices s).

(** Elementwise update that may look at the position. *)
Definition timap {A B} (f : list nat → A → B) (m : tensor A) : tensor B :=
  Tensor (tshape m) (zip_with f (indices (tshape m)) (tdata m)).

(** Elementwise map. *)
Definition tmap {A B} (f : A → B) (m : tensor A) : tensor B :=
  Tensor (tshape m) (f <$> tdata m).

(** [torch.zeros(shape)]. *)
Definition torch_zeros (s : list nat) : tensor R :=
  Tensor s (replicate (numel s) 0%R).

(** The last three entries [l[-3], l[-2], l[-1]] of a sequence. *)
Definition last3 (l : list nat) : option (nat * nat * nat) :=
  match reverse l with
  | c :: b :: a :: _ => Some (a, b, c)
  | _ => None
  end.

(** [T, H, W = shape[-3], shape[-2], shape[-1]]. *)
Definition trailing_dims (s : list nat) : result (nat * nat * nat) :=
  or_raise IndexError (last3 s).

(** [mask[..., t, h, w] = v]: every element whose last three coordinates
    are [(t, h, w)] is set; a coordinate out of range raises. *)
Definition tset_last3 {A} (m : tensor A) (t h w : nat) (v : A)
  : result (tensor A) :=
  '(T, H, W) ← trailing_dims (tshape m);
  if decide (t < T ∧ h < H ∧ w < W) then
    Ok (timap (λ idx old,
                 if decide (last3 idx = Some (t, h, w)) then v else old) m)
  else Raise IndexError.

(** [mask[..., a0:a1, b0:b1, c0:c1] = v]. *)
Definition tset_slice3 {A} (m : tensor A) (a b c : Z * Z) (v : A)
  : result (tensor A) :=
  '(T, H, W) ← trailing_dims (tshape m);
  Ok (timap (λ idx old,
               match last3 idx with
               | Some (t, h, w) =>
                   if in_slice a.1 a.2 T t && in_slice b.1 b.2 H h
                      && in_slice c.1 c.2 W w
                   then v else old
               | None => old
               end) m).

(** ** The filters *)

(** The expression
    [((d_s/d_t)*(2*t/T-1))**2 + (2*h/H-1)**2 + (2*w/W-1)**2],
    which the three loop bodies assign to [d_square]. *)
Definition squared_distance (d_s d_t : R) (T H W t h w : nat) : result R :=
  r ← py_div d_s d_t;
  ct ← py_div (2 * nR t) (nR T);
  ch ← py_div (2 * nR h) (nR H);
  cw ← py_div (2 * nR w) (nR W);
  Ok ((r * (ct - 1)) ^ 2 + (ch - 1) ^ 2 + (cw - 1) ^ 2)%R.

Definition gaussian_low_pass_filter (shape : list nat) (d_s d_t : R)
  : result (tensor R) :=
  '(T, H, W) ← trailing_dims shape;
  let mask := torch_zeros shape in
  if decide (d_s = 0%R ∨ d_t = 0%R) then Ok mask else
  for_range T (λ t mask,
    for_range H (λ h mask,
      for_range W (λ w mask,
        d_square ← squared_distance d_s d_t T H W t h w;
        c ← py_div (-1) (2 * d_s ^ 2);
        tset_last3 mask t h w (exp (c * d_square))) mask) mask) mask.

(** The order [n] of the filter is a natural number. *)
Definition butterworth_low_pass_filter (shape : list nat) (n : nat)
    (d_s d_t : R) : result (tensor R) :=
  '(T, H, W) ← trailing_dims shape;
  let mask := torch_zeros shape in
  if decide (d_s = 0%R ∨ d_t = 0%R) then Ok mask else
  for_range T (λ t mask,
    for_range H (λ h mask,
      for_range W (λ w mask,
        d_square ← squared_distance d_s d_t T H W t h w;
        q ← py_div d_square (d_s ^ 2);
        v ← py_div 1 (1 + q ^ n);
        tset_last3 mask t h w v) mask) mask) mask.

Definition ideal_low_pass_filter (shape : list nat) (d_s d_t : R)
  : result (tensor R) :=
  '(T, H, W) ← trailing_dims shape;
  let mask := torch_zeros shape in
  if decide (d_s = 0%R ∨ d_t = 0%R) then Ok mask else
  for_range T (λ t mask,
    for_range H (λ h mask,
      for_range W (λ w mask,
        d_square ← squared_distance d_s d_t T H W t h w;
        tset_last3 mask t h w
          (if Rle_dec d_square (d_s * 2) then 1%R else 0%R)) mask) mask) mask.

(** [round(n // 2 * d)]. *)
Definition box_threshold (n : nat) (d : R) : Z :=
  py_round (nR (n / 2) * d).

Definition box_low_pass_filter (shape : list nat) (d_s d_t : R)
  : result (tensor R) :=
  '(T, H, W) ← trailing_dims shape;
  let mask := torch_zeros shape in
  if decide (d_s = 0%R ∨ d_t = 0%R) then Ok mask else
  let threshold_s := box_threshold H d_s in
  let threshold_t := box_threshold T d_t in
  let cframe := Z.of_nat (T / 2) in
  let crow := Z.of_nat (H / 2) in
  let ccol := Z.of_nat (W / 2) in
  tset_slice3 mask
    (cframe - threshold_t, cframe + threshold_t)%Z
    (crow - threshold_s, crow + threshold_s)%Z
    (ccol - threshold_s, ccol + threshold_s)%Z
    1%R.

(** The filter parameters: [params.method], [params.d_s], [params.d_t]
    and [params.n] (the order of the butterworth filter). *)
Module params.
Record t : Type := Make {
  method : string;
  d_s : R;
  d_t : R;
  n : nat
}.
End params.

(** [tensor.to(device)]: placement does not change shape or values. *)
Definition to_device {A} (m : tensor A) (device : string) : tensor A := m.

Definition get_freq_filter (shape : list nat) (device : string)
    (p : params.t) : result (tensor R) :=
  if decide (params.method p = "gaussian") then
    m ← gaussian_low_pass_filter shape (params.d_s p) (params.d_t p);
    Ok (to_device m device)
  else if decide (params.method p = "ideal") then
    m ← ideal_low_pass_filter shape (params.d_s p) (params.d_t p);
    Ok (to_device m device)
  else if decide (params.method p = "box") then
    m ← box_low_pass_filter shape (params.d_s p) (params.d_t p);
    Ok (to_device m device)
  else if decide (params.method p = "butterworth") then
    m ← butterworth_low_pass_filter shape (params.n p) (params.d_s p) (params.d_t p);
    Ok (to_device m device)
  else Raise NotImplementedError.

(** ** Complex numbers and the discrete Fourier transform

    [torch.fft] is a library of the environment; it is modelled by its
    mathematical definition, in exact arithmetic. *)

(** A complex number, as real and imaginary part. *)
Definition complex : Type := R * R.

Definition RtoC (x : R) : complex := (x, 0%R).
Definition Re (z : complex) : R := z.1.
Definition Cadd (z w : complex) : complex := (z.1 + w.1, z.2 + w.2)%R.
Definition Cmul (z w : complex) : complex :=
  (z.1 * w.1 - z.2 * w.2, z.1 * w.2 + z.2 * w.1)%R.
(** A complex number times a real weight. *)
Definition Cscale (z : complex) (r : R) : complex := (z.1 * r, z.2 * r)%R.
(** [exp(iθ)]. *)
Definition cis (θ : R) : complex := (cos θ, sin θ).

#[global] Instance R_inhabited : Inhabited R := populate 0%R.
#[global] Instance complex_inhabited : Inhabited complex := populate (RtoC 0).

(** [f 0 + f 1 + ... + f (n-1)]. *)
Fixpoint Csum (n : nat) (f : nat → complex) : complex :=
  match n with
  | 0 => RtoC 0
  | S n' => Cadd (Csum n' f) (f n')
  end.

(** [m[idx]], with a default outside the tensor. *)
Definition tgetd {A} `{Inhabited A} (m : tensor A) (idx : list nat) : A :=
  default inhabitant (tget m idx).

(** The kernel of the transform of length [N], from input position [j] to
    output position [k]: [exp(-2πi·jk/N)] forwards and [exp(2πi·jk/N)/N]
    backwards (the default normalisation, ["backward"]). *)
Definition dft_kernel (inverse : bool) (N j k : nat) : complex :=
  if inverse
  then Cscale (cis (2 * PI * nR j * nR k / nR N)) (1 / nR N)
  else cis (- (2 * PI * nR j * nR k / nR N)).

(** The linear map with kernel [K] applied along axis [a]:
    [out[.., k, ..] = sum_j m[.., j, ..] * K N j k]. *)
Definition axis_linear (K : nat → nat → nat → complex) (a : nat)
    (m : tensor complex) : tensor complex :=
  let N := tshape m !!! a in
  tabulate (tshape m) (λ idx,
    Csum N (λ j, Cmul (tgetd m (<[a:=j]> idx)) (K N j (idx !!! a)))).

(** [torch.roll(m, shift, a)] for [0 <= shift <= N]:
    [out[.., (j + shift) mod N, ..] = m[.., j, ..]]. *)
Definition roll_axis (shift : nat → nat) (a : nat) (m : tensor complex)
  : tensor complex :=
  let N := tshape m !!! a in
  tabulate (tshape m) (λ idx,
    tgetd m (<[a:=(idx !!! a + (N - shift N)) `mod` N]> idx)).

(** A possibly negative dimension of a tensor with [ndim] dimensions. *)
Definition resolve_dim (ndim : nat) (d : Z) : result nat :=
  if decide (- Z.of_nat ndim ≤ d < Z.of_nat ndim)%Z
  then Ok (Z.to_nat (d `mod` Z.of_nat ndim))
  else Raise IndexError.

Fixpoint resolve_dims (ndim : nat) (dims : list Z) : result (list nat) :=
  match dims with
  | [] => Ok []
  | d :: dims' =>
      a ← resolve_dim ndim d;
      axes ← resolve_dims ndim dims';
      Ok (a :: axes)
  end.

(** An operation on one axis, applied to each of [dims] (the last one
    first). *)
Definition along_dims (op : nat → tensor complex → tensor complex)
    (dims : list Z) (m : tensor complex) : result (tensor complex) :=
  axes ← resolve_dims (length (tshape m)) dims;
  Ok (foldr op m axes).

(** A transform along an axis of length 0 is refused ("invalid number of
    data points"). *)
Definition has_data_points (m : tensor complex) (dims : list Z) : result () :=
  axes ← resolve_dims (length (tshape m)) dims;
  if decide (Forall (λ a, 0 < tshape m !!! a) axes) then Ok ()
  else Raise RuntimeError.

(** [fft.fftn(m, dim=dims)], [fft.ifftn(m, dim=dims)]. *)
Definition fftn (m : tensor complex) (dims : list Z)
  : result (tensor complex) :=
  _ ← has_data_points m dims;
  along_dims (axis_linear (dft_kernel false)) dims m.
Definition ifftn (m : tensor complex) (dims : list Z)
  : result (tensor complex) :=
  _ ← has_data_points m dims;
  along_dims (axis_linear (dft_kernel true)) dims m.

(** [fft.fftshift(m, dim=dims)] rolls each axis by [N // 2];
    [fft.ifftshift(m, dim=dims)] rolls it by [(N + 1) // 2]. *)
Definition fftshift (m : tensor complex) (dims : list Z)
  : result (tensor complex) :=
  along_dims (roll_axis (λ N, N / 2)) dims m.
Definition ifftshift (m : tensor complex) (dims : list Z)
  : result (tensor complex) :=
  along_dims (roll_axis (λ N, (N + 1) / 2)) dims m.

(** *** Broadcasting *)

(** The broadcast of two shapes, both given from the last dimension to the
    first: sizes are equal or one of them is 1; a missing dimension counts
    as 1. *)
Fixpoint broadcast_rev (ra rb : list nat) : option (list nat) :=
  match ra, rb with
  | [], _ => Some rb
  | _, [] => Some ra
  | da :: ra', db :: rb' =>
      if decide (da = db) then (cons da) <$> broadcast_rev ra' rb'
      else if decide (da = 1) then (cons db) <$> broadcast_rev ra' rb'
      else if decide (db = 1) then (cons da) <$> broadcast_rev ra' rb'
      else None
  end.

Definition broadcast_shapes (sa sb : list nat) : option (list nat) :=
  reverse <$> broadcast_rev (reverse sa) (reverse sb).

(** The index of an operand of shape [s] that the index [idx] of the
    broadcast result reads: aligned at the last dimension, and 0 along every
    dimension of size 1. *)
Definition broadcast_index (s idx : list nat) : list nat :=
  reverse (zip_with (λ d i, if decide (d = 1) then 0 else i)
             (reverse s) (reverse idx)).

(** An elementwise binary operation on two tensors, with broadcasting. *)
Definition broadcast_op {A B D} `{Inhabited A, Inhabited B}
    (op : A → B → D) (a : tensor A) (b : tensor B) : result (tensor D) :=
  match broadcast_shapes (tshape a) (tshape b) with
  | Some s =>
      Ok (tabulate s (λ idx,
            op (tgetd a (broadcast_index (tshape a) idx))
               (tgetd b (broadcast_index (tshape b) idx))))
  | None => Raise RuntimeError
  end.

(** ** The spectral mixer *)

(** [dim=(-3, -2, -1)]. *)
Definition last_three_dims : list Z := [-3; -2; -1]%Z.

Definition freq_mix_3d (x noise LPF : tensor R) : result (tensor R) :=
  (* FFT *)
  x_freq ← fftn (tmap RtoC x) last_three_dims;
  x_freq ← fftshift x_freq last_three_dims;
  noise_freq ← fftn (tmap RtoC noise) last_three_dims;
  noise_freq ← fftshift noise_freq last_three_dims;
  (* frequency mix *)
  let HPF := tmap (λ l, 1 - l)%R LPF in
  x_freq_low ← broadcast_op Cscale x_freq LPF;
  noise_freq_high ← broadcast_op Cscale noise_freq HPF;
  x_freq_mixed ← broadcast_op Cadd x_freq_low noise_freq_high;
  (* IFFT *)
  x_freq_mixed ← ifftshift x_freq_mixed last_three_dims;
  x_mixed ← ifftn x_freq_mixed last_three_dims;
  Ok (tmap Re x_mixed).

(** ** The formulas of the specification

    These follow the words of the specification, not the code; the
    theorems below compare the code with them. *)

(** Squared distance: with [ct = 2t/T - 1], [ch = 2h/H - 1] and
    [cw = 2w/W - 1], it is [(d_s/d_t · ct)² + ch² + cw²]. *)
Definition spec_d_square (d_s d_t : R) (T H W t h w : nat) : R :=
  let ct := (2 * nR t / nR T - 1)%R in
  let ch := (2 * nR h / nR H - 1)%R in
  let cw := (2 * nR w / nR W - 1)%R in
  ((d_s / d_t * ct) ^ 2 + ch ^ 2 + cw ^ 2)%R.

(** gaussian: [exp(-d² / (2·d_s²))]. *)
Definition spec_gaussian (d_s d_t : R) (T H W t h w : nat) : R :=
  exp (- spec_d_square d_s d_t T H W t h w / (2 * d_s ^ 2)).

(** butterworth: [1 / (1 + (d²/d_s²)^n)]. *)
Definition spec_butterworth (n : nat) (d_s d_t : R) (T H W t h w : nat) : R :=
  (1 / (1 + (spec_d_square d_s d_t T H W t h w / d_s ^ 2) ^ n))%R.

(** box: the block [center - threshold, center + threshold) on each axis,
    with centres [(T/2, H/2, W/2)] by integer division,
    [threshold_t = round(floor(T/2)·d_t)] and
    [threshold_s = round(floor(H/2)·d_s)] for both height and width. *)
Definition spec_box_block (T H W : nat) (d_s d_t : R) (t h w : nat) : Prop :=
  let threshold_s := py_round (nR (H / 2) * d_s) in
  let threshold_t := py_round (nR (T / 2) * d_t) in
  (Z.of_nat (T / 2) - threshold_t ≤ Z.of_nat t < Z.of_nat (T / 2) + threshold_t)%Z ∧
  (Z.of_nat (H / 2) - threshold_s ≤ Z.of_nat h < Z.of_nat (H / 2) + threshold_s)%Z ∧
  (Z.of_nat (W / 2) - threshold_s ≤ Z.of_nat w < Z.of_nat (W / 2) + threshold_s)%Z.

(** The four recognised method names. *)
Definition recognized_methods : list string :=
  ["gaussian"; "ideal"; "box"; "butterworth"].

(** ** Predicates used in the proofs *)

(** The loop nest of the gaussian, butterworth and ideal filters, with the
    loop body as a parameter. *)
Definition fill_mask (T H W : nat)
    (body : nat → nat → nat → tensor R → result (tensor R))
    (mask : tensor R) : result (tensor R) :=
  for_range T (λ t mask,
    for_range H (λ h mask,
      for_range W (λ w mask, body t h w mask) mask) mask) mask.

(** What the slice assignment of [box_low_pass_filter] selects. *)
Definition box_selects (T H W : nat) (d_s d_t : R) (t h w : nat) : bool :=
  let threshold_s := box_threshold H d_s in
  let threshold_t := box_threshold T d_t in
  let cframe := Z.of_nat (T / 2) in
  let crow := Z.of_nat (H / 2) in
  let ccol := Z.of_nat (W / 2) in
  in_slice (cframe - threshold_t) (cframe + threshold_t) T t
  && in_slice (crow - threshold_s) (crow + threshold_s) H h
  && in_slice (ccol - threshold_s) (ccol + threshold_s) W w.

(** [filled shape f P m]: [m] has shape [shape], and holds [f t h w]
    wherever the coordinates [(t, h, w)] satisfy [P]. *)
Definition filled (shape : list nat) (f : nat → nat → nat → R)
    (P : nat → nat → nat → Prop) (m : tensor R) : Prop :=
  tshape m = shape ∧ wf m ∧
  ∀ idx t h w, idx ∈ indices shape → last3 idx = Some (t, h, w) →
    P t h w → tget m idx = Some (f t h w).

(** The coordinates visited before the iteration [(t0, h0, w0)]. *)
Definition before (t0 h0 w0 t h w : nat) : Prop :=
  t < t0 ∨ (t = t0 ∧ (h < h0 ∨ (h = h0 ∧ w < w0))).

(** [r] is a mask of shape [shape]. *)
Definition returns_shape (shape : list nat) (r : result (tensor R)) : Prop :=
  ∃ m, r = Ok m ∧ tshape m = shape ∧ wf m.

(** [s] is the centred spectrum of [m], as the mixer computes it. *)
Definition spectrum_of (m : tensor R) (s : tensor complex) : Prop :=
  ∃ f, fftn (tmap RtoC m) last_three_dims = Ok f ∧
       fftshift f last_three_dims = Ok s.

(** ** Closed forms of the mixer used in the proofs *)

(** The axes that [last_three_dims] names in a tensor. *)
Definition last_three_axes {A} (m : tensor A) : list nat :=
  let r := length (tshape m) in [r - 3; r - 2; r - 1].

(** [fftshift(fftn(x))] without the error cases. *)
Definition forward_transform (x : tensor R) : tensor complex :=
  foldr (roll_axis (λ N, N / 2))
    (foldr (axis_linear (dft_kernel false)) (tmap RtoC x) (last_three_axes x))
    (last_three_axes x).

(** [ifftn(ifftshift(m))] without the error cases. *)
Definition inverse_transform (m : tensor complex) : tensor complex :=
  foldr (axis_linear (dft_kernel true))
    (foldr (roll_axis (λ N, (N + 1) / 2)) m (last_three_axes m))
    (last_three_axes m).

(** [x_freq * LPF + noise_freq * (1 - LPF)] on the shape [s]. *)
Definition mixed_spectrum (xs ns : tensor complex) (LPF : tensor R)
    (s : list nat) : tensor complex :=
  tabulate s (λ idx,
    let l := tgetd LPF (broadcast_index (tshape LPF) idx) in
    Cadd (Cscale (tgetd xs idx) l) (Cscale (tgetd ns idx) (1 - l))).

(** The result of [freq_mix_3d] where it raises nothing. *)
Definition mix_closed (x noise LPF : tensor R) : tensor R :=
  tmap Re (inverse_transform
             (mixed_spectrum (forward_transform x) (forward_transform noise)
                LPF (tshape x))).

(** [a * x + b * y] for two tensors of one shape. *)
Definition tlin (a b : R) (x y : tensor R) : tensor R :=
  tabulate (tshape x) (λ idx, a * tgetd x idx + b * tgetd y idx)%R.

Definition ctlin (a b : R) (x y : tensor complex) : tensor complex :=
  tabulate (tshape x) (λ idx,
    Cadd (Cscale (tgetd x idx) a) (Cscale (tgetd y idx) b)).

(** [torch.broadcast_to(m, s)], for a shape [s] that [m] broadcasts to. *)
Definition broadcast_to {A} `{Inhabited A} (m : tensor A) (s : list nat)
  : tensor A :=
  tabulate s (λ idx, tgetd m (broadcast_index (tshape m) idx)).

(** * Properties *)

(** ** The error monad and the loops *)

Lemma bind_Ok {A B} (a : A) (f : A → result B) : Ok a ≫= f = f a.
Proof. done. Qed.

Lemma bind_id {A} (r : result A) : r ≫= Ok = r.
Proof. by destruct r. Qed.

Lemma for_each_inv {St} (I : nat → St → Prop) (l : list nat)
    (body : nat → St → result St) (s : St) :
  (∀ k i s, l !! k = Some i → I k s → ∃ s', body i s = Ok s' ∧ I (S k) s') →
  I 0 s →
  ∃ s', for_each l body s = Ok s' ∧ I (length l) s'.
Proof.
  revert I s. induction l as [|i l IH]; intros I s Hstep H0; simpl.
  - eauto.
  - destruct (Hstep 0 i s eq_refl H0) as (s1 & -> & H1). simpl.
    apply (IH (λ k, I (S k))); [|done].
    intros k j s2 Hk. by apply (Hstep (S k)).
Qed.

Lemma for_range_inv {St} (I : nat → St → Prop) (n : nat)
    (body : nat → St → result St) (s : St) :
  (∀ i s, i < n → I i s → ∃ s', body i s = Ok s' ∧ I (S i) s') →
  I 0 s →
  ∃ s', for_range n body s = Ok s' ∧ I n s'.
Proof.
  intros Hstep H0. unfold for_range.
  destruct (for_each_inv I (seq 0 n) body s) as (s' & Hs' & HI); [|done|].
  - intros k i s1 [-> Hk]%lookup_seq. by apply Hstep.
  - rewrite length_seq in HI. eauto.
Qed.

(** ** Indices and offsets *)

Lemma length_bind_const {A B} (f : A → list B) (l : list A) (k : nat) :
  (∀ x, length (f x) = k) → length (l ≫= f) = length l * k.
Proof.
  intros Hf. induction l as [|x l IH]; [done|].
  rewrite bind_cons, length_app, Hf, IH. simpl. lia.
Qed.

Lemma lookup_bind_const {A B} (f : A → list B) (l : list A) (k i r : nat) :
  (∀ x, length (f x) = k) → r < k →
  (l ≫= f) !! (i * k + r) = l !! i ≫= λ x, f x !! r.
Proof.
  intros Hf Hr. revert i. induction l as [|x l IH]; intros i; [done|].
  rewrite bind_cons. destruct i as [|i]; simpl.
  - rewrite lookup_app_l by (rewrite Hf; lia). done.
  - rewrite lookup_app_r by (rewrite Hf; lia).
    rewrite Hf. replace (k + i * k + r - k) with (i * k + r) by lia. apply IH.
Qed.

Lemma length_indices (s : list nat) : length (indices s) = numel s.
Proof.
  induction s as [|d s IH]; [done|]. simpl.
  rewrite (length_bind_const _ _ (numel s)), length_seq; [done|].
  intros x. by rewrite length_fmap.
Qed.

Lemma ravel_indices (s idx : list nat) (o : nat) :
  ravel s idx = Some o → indices s !! o = Some idx.
Proof.
  revert idx o. induction s as [|d s IH]; intros [|i idx] o; simpl; try done.
  - by intros [= <-].
  - case_decide; [|done]. destruct (ravel s idx) as [o'|] eqn:Ho; [|done].
    intros [= <-]. specialize (IH _ _ Ho).
    assert (o' < numel s).
    { rewrite <-length_indices. by eapply lookup_lt_Some. }
    rewrite (lookup_bind_const _ _ (numel s)); [| |done].
    + rewrite lookup_seq_lt by done. simpl. by rewrite list_lookup_fmap, IH.
    + intros x. by rewrite length_fmap, length_indices.
Qed.

Lemma indices_ravel (s idx : list nat) (o : nat) :
  indices s !! o = Some idx → ravel s idx = Some o.
Proof.
  revert idx o. induction s as [|d s IH]; intros idx o; simpl.
  - destruct o; [|done]. by intros [= <-].
  - intros Hl. pose proof (lookup_lt_Some _ _ _ Hl) as Hlt.
    rewrite (length_bind_const _ _ (numel s)), length_seq in Hlt
      by (intros x; by rewrite length_fmap, length_indices).
    assert (0 < numel s) as Hpos by (destruct (numel s); lia).
    assert (o = o `div` numel s * numel s + o `mod` numel s) as Ho.
    { rewrite Nat.mul_comm. apply Nat.div_mod. lia. }
    assert (o `mod` numel s < numel s) by (apply Nat.mod_upper_bound; lia).
    assert (o `div` numel s < d).
    { apply Nat.Div0.div_lt_upper_bound. lia. }
    rewrite Ho in Hl.
    rewrite (lookup_bind_const _ _ (numel s)) in Hl; [| |done].
    2:{ intros x. by rewrite length_fmap, length_indices. }
    rewrite lookup_seq_lt in Hl by done. simpl in Hl.
    rewrite list_lookup_fmap in Hl.
    destruct (indices s !! (o `mod` numel s)) as [idx'|] eqn:Hi; [|done].
    simpl in Hl. injection Hl as <-. simpl.
    rewrite decide_True by done. rewrite (IH _ _ Hi). simpl. by rewrite <-Ho.
Qed.

Lemma elem_of_indices_ravel (s idx : list nat) :
  idx ∈ indices s ↔ is_Some (ravel s idx).
Proof.
  split.
  - intros [o Ho]%list_elem_of_lookup. exists o. by apply indices_ravel.
  - intros [o Ho]. apply list_elem_of_lookup. exists o. by apply ravel_indices.
Qed.

Lemma ravel_lt (s idx : list nat) (o : nat) :
  ravel s idx = Some o → o < numel s.
Proof.
  intros H%ravel_indices%lookup_lt_Some. by rewrite length_indices in H.
Qed.

Lemma elem_of_indices (s idx : list nat) :
  idx ∈ indices s ↔ Forall2 lt idx s.
Proof.
  rewrite elem_of_indices_ravel.
  revert idx. induction s as [|d s IH]; intros [|i idx]; simpl.
  - split; [constructor|eauto].
  - split; [by intros [? ?]|inversion 1].
  - split; [by intros [? ?]|inversion 1].
  - case_decide.
    + rewrite fmap_is_Some, IH. split; [by constructor|by inversion 1].
    + split; [by intros [? ?]|]. inversion 1; subst. lia.
Qed.

(** ** Reading tensors *)

Lemma wf_zeros (s : list nat) : wf (torch_zeros s).
Proof. unfold wf. simpl. by rewrite length_replicate. Qed.

Lemma wf_tabulate {A} (s : list nat) (f : list nat → A) : wf (tabulate s f).
Proof. unfold wf. simpl. by rewrite length_fmap, length_indices. Qed.

Lemma wf_timap {A B} (f : list nat → A → B) (m : tensor A) :
  wf m → wf (timap f m).
Proof.
  unfold wf. simpl. intros Hm. rewrite length_zip_with, length_indices. lia.
Qed.

Lemma wf_tmap {A B} (f : A → B) (m : tensor A) : wf m → wf (tmap f m).
Proof. unfold wf. simpl. by rewrite length_fmap. Qed.

Lemma tget_timap {A B} (f : list nat → A → B) (m : tensor A) idx :
  tget (timap f m) idx = f idx <$> tget m idx.
Proof.
  unfold tget. simpl. destruct (ravel (tshape m) idx) as [o|] eqn:Ho; [|done].
  simpl. rewrite lookup_zip_with, (ravel_indices _ _ _ Ho). simpl.
  by destruct (tdata m !! o).
Qed.

Lemma tget_tmap {A B} (f : A → B) (m : tensor A) idx :
  tget (tmap f m) idx = f <$> tget m idx.
Proof.
  unfold tget. simpl. destruct (ravel (tshape m) idx) as [o|]; [|done].
  simpl. by rewrite list_lookup_fmap.
Qed.

Lemma tget_tabulate {A} (s : list nat) (f : list nat → A) idx :
  idx ∈ indices s → tget (tabulate s f) idx = Some (f idx).
Proof.
  intros [o Ho]%elem_of_indices_ravel. unfold tget. simpl. rewrite Ho. simpl.
  by rewrite list_lookup_fmap, (ravel_indices _ _ _ Ho).
Qed.

Lemma tget_zeros (s idx : list nat) :
  idx ∈ indices s → tget (torch_zeros s) idx = Some 0%R.
Proof.
  intros [o Ho]%elem_of_indices_ravel. unfold tget. simpl. rewrite Ho. simpl.
  apply lookup_replicate_2. by eapply ravel_lt.
Qed.

Lemma tget_is_Some {A} (m : tensor A) idx :
  wf m → idx ∈ indices (tshape m) → is_Some (tget m idx).
Proof.
  intros Hwf [o Ho]%elem_of_indices_ravel. unfold tget. rewrite Ho. simpl.
  apply lookup_lt_is_Some. rewrite Hwf. by eapply ravel_lt.
Qed.

(** Two tensors of one shape that agree at every index are equal. *)
Lemma tensor_ext {A} (a b : tensor A) :
  wf a → wf b → tshape a = tshape b →
  (∀ idx, idx ∈ indices (tshape a) → tget a idx = tget b idx) →
  a = b.
Proof.
  destruct a as [s da], b as [s' db]. unfold wf, tget. simpl.
  intros Ha Hb <- Hext. f_equal. apply list_eq. intros o.
  destruct (decide (o < numel s)) as [Ho|Ho].
  - rewrite <-length_indices in Ho.
    destruct (lookup_lt_is_Some_2 _ _ Ho) as [idx Hidx].
    specialize (Hext idx (list_elem_of_lookup_2 _ _ _ Hidx)).
    by rewrite (indices_ravel _ _ _ Hidx) in Hext.
  - rewrite !lookup_ge_None_2; [done|lia|lia].
Qed.

Lemma timap_id {A} (f : list nat → A → A) (m : tensor A) :
  wf m → (∀ idx a, idx ∈ indices (tshape m) → f idx a = a) → timap f m = m.
Proof.
  intros Hwf Hf. apply tensor_ext; [by apply wf_timap|done|done|].
  simpl. intros idx Hidx. rewrite tget_timap.
  destruct (tget m idx); [|done]. simpl. by rewrite Hf.
Qed.

Lemma last3_Some (l : list nat) (a b c : nat) :
  last3 l = Some (a, b, c) ↔ ∃ l', l = l' ++ [a; b; c].
Proof.
  unfold last3. split.
  - destruct (reverse l) as [|z [|y [|x r]]] eqn:Hr; try done.
    intros [= <- <- <-]. exists (reverse r).
    rewrite <-(reverse_involutive l), Hr. rewrite !reverse_cons.
    by rewrite <-!app_assoc.
  - intros [l' ->]. rewrite reverse_app. done.
Qed.

Lemma last3_index (s idx : list nat) (T H W : nat) :
  idx ∈ indices s → last3 s = Some (T, H, W) →
  ∃ t h w, last3 idx = Some (t, h, w) ∧ t < T ∧ h < H ∧ w < W.
Proof.
  intros Hidx%elem_of_indices%Forall2_reverse. unfold last3.
  destruct (reverse s) as [|c [|b [|a r]]]; try done. intros [= <- <- <-].
  inversion Hidx as [|t ? r1 ? Ht H1]; subst.
  inversion H1 as [|h ? r2 ? Hh H2]; subst.
  inversion H2 as [|w ? r3 ? Hw H3]; subst.
  eauto 10.
Qed.

Lemma trailing_dims_Some (s : list nat) (T H W : nat) :
  last3 s = Some (T, H, W) → trailing_dims s = Ok (T, H, W).
Proof. unfold trailing_dims. by intros ->. Qed.

(** ** Python's [round] *)

Lemma py_round_below (x : R) (z : Z) :
  (IZR z <= x < IZR z + 1 / 2)%R → py_round x = z.
Proof.
  intros Hx. unfold py_round.
  rewrite (Zfloor_eq z x) by lra. destruct (Rlt_dec _ _); [done|lra].
Qed.

Lemma py_round_above (x : R) (z : Z) :
  (IZR z + 1 / 2 < x < IZR z + 1)%R → py_round x = (z + 1)%Z.
Proof.
  intros Hx. unfold py_round.
  rewrite (Zfloor_eq z x) by lra.
  destruct (Rlt_dec _ _); [lra|]. destruct (Rlt_dec _ _); [done|lra].
Qed.

Lemma py_round_half (x : R) (z : Z) :
  x = (IZR z + 1 / 2)%R →
  py_round x = if Z.even z then z else (z + 1)%Z.
Proof.
  intros ->. unfold py_round.
  rewrite (Zfloor_eq z) by lra.
  destruct (Rlt_dec _ _); [lra|]. destruct (Rlt_dec _ _); [lra|done].
Qed.

(** ** The box filter *)

Lemma box_low_pass_filter_spec (shape : list nat) (T H W : nat) (d_s d_t : R) :
  last3 shape = Some (T, H, W) → d_s ≠ 0%R → d_t ≠ 0%R →
  ∃ m, box_low_pass_filter shape d_s d_t = Ok m ∧
       tshape m = shape ∧ wf m ∧
       ∀ idx t h w, idx ∈ indices shape → last3 idx = Some (t, h, w) →
         tget m idx = Some (if box_selects T H W d_s d_t t h w
                            then 1%R else 0%R).
Proof.
  intros Hs Hds Hdt. unfold box_low_pass_filter.
  rewrite (trailing_dims_Some _ _ _ _ Hs). simpl.
  rewrite decide_False by tauto.
  unfold tset_slice3. simpl. rewrite (trailing_dims_Some _ _ _ _ Hs). simpl.
  eexists. split; [done|]. split; [done|]. split.
  { apply wf_timap, wf_zeros. }
  intros idx t h w Hidx Hl. rewrite tget_timap, tget_zeros by done. simpl.
  rewrite Hl. done.
Qed.

(** ** The triple loop *)

Section fill_mask.
Context (shape : list nat) (T H W : nat) (f : nat → nat → nat → R).
Context (body : nat → nat → nat → tensor R → result (tensor R)).
Hypothesis Hshape : last3 shape = Some (T, H, W).
Hypothesis Hbody :
  ∀ t h w mask, t < T → h < H → w < W →
    body t h w mask = tset_last3 mask t h w (f t h w).

Lemma filled_weaken (P P' : nat → nat → nat → Prop) (m : tensor R) :
  (∀ t h w, t < T → h < H → w < W → P' t h w → P t h w) →
  filled shape f P m → filled shape f P' m.
Proof using Hshape.
  intros HP (Hs & Hwf & Hget). split; [done|]. split; [done|].
  intros idx t h w Hidx Hl HP'.
  destruct (last3_index _ _ _ _ _ Hidx Hshape)
    as (t' & h' & w' & Hl' & Ht & Hh & Hw).
  rewrite Hl in Hl'. injection Hl' as <- <- <-.
  apply Hget; [done|done|]. by apply HP.
Qed.

Lemma tset_last3_filled (P : nat → nat → nat → Prop) (m : tensor R)
    (t h w : nat) :
  t < T → h < H → w < W → filled shape f P m →
  ∃ m', tset_last3 m t h w (f t h w) = Ok m' ∧
        filled shape f (λ t' h' w', P t' h' w' ∨ (t', h', w') = (t, h, w)) m'.
Proof using Hshape.
  intros Ht Hh Hw (Hs & Hwf & Hget). unfold tset_last3.
  rewrite Hs, (trailing_dims_Some _ _ _ _ Hshape). simpl.
  rewrite decide_True by done. eexists. split; [done|].
  split; [done|]. split; [by apply wf_timap|].
  intros idx t' h' w' Hidx Hl HP. rewrite tget_timap, Hl.
  destruct (tget_is_Some m idx) as [a Ha]; [done|by rewrite Hs|].
  rewrite Ha. simpl. case_decide as Heq.
  - by injection Heq as -> -> ->.
  - destruct HP as [HP|HP]; [|congruence]. rewrite <-Ha. by eapply Hget.
Qed.

Lemma fill_mask_filled (m0 : tensor R) :
  tshape m0 = shape → wf m0 →
  ∃ m, fill_mask T H W body m0 = Ok m ∧ filled shape f (λ _ _ _, True) m.
Proof using Hshape Hbody.
  intros Hs0 Hwf0. unfold fill_mask.
  destruct (for_range_inv (λ t0 m, filled shape f (before t0 0 0) m) T
    (λ t mask, for_range H (λ h mask, for_range W (λ w mask,
       body t h w mask) mask) mask) m0)
    as (m & Hm & Hf).
  - intros t0 m1 Ht0 H1.
    destruct (for_range_inv (λ h0 m, filled shape f (before t0 h0 0) m) H
      (λ h mask, for_range W (λ w mask, body t0 h w mask) mask) m1)
      as (m2 & Hm2 & H2); [|done|].
    + intros h0 m2 Hh0 H2.
      destruct (for_range_inv (λ w0 m, filled shape f (before t0 h0 w0) m) W
        (λ w mask, body t0 h0 w mask) m2)
        as (m3 & Hm3 & H3); [|done|].
      * intros w0 m3 Hw0 H3. rewrite Hbody by done.
        destruct (tset_last3_filled (before t0 h0 w0) m3 t0 h0 w0)
          as (m4 & Hm4 & H4);
          [done..|].
        exists m4. split; [done|]. revert H4. apply filled_weaken.
        unfold before. intros t h w _ _ _ Hb.
        destruct (decide ((t, h, w) = (t0, h0, w0))) as [[= -> -> ->]|Hne];
          [by right|].
        left. assert (w ≠ w0 ∨ h ≠ h0 ∨ t ≠ t0) by
          (destruct (decide (w = w0)), (decide (h = h0)), (decide (t = t0));
           subst; tauto).
        lia.
      * exists m3. split; [done|]. revert H3. apply filled_weaken.
        unfold before. lia.
    + exists m2. split; [done|]. revert H2. apply filled_weaken.
      unfold before. lia.
  - split; [done|]. split; [done|]. unfold before. intros; lia.
  - exists m. split; [done|]. revert Hf. apply filled_weaken.
    unfold before. lia.
Qed.

Lemma fill_mask_spec (m0 : tensor R) :
  tshape m0 = shape → wf m0 →
  ∃ m, fill_mask T H W body m0 = Ok m ∧ tshape m = shape ∧ wf m ∧
       ∀ idx t h w, idx ∈ indices shape → last3 idx = Some (t, h, w) →
         tget m idx = Some (f t h w).
Proof using Hshape Hbody.
  intros Hs0 Hwf0.
  destruct (fill_mask_filled m0 Hs0 Hwf0) as (m & Hm & Hs & Hwf & Hget).
  exists m. naive_solver.
Qed.
End fill_mask.

(** ** The distance and the three looping filters *)

Lemma nR_neq_0 (n : nat) : 0 < n → nR n ≠ 0%R.
Proof. intros Hn. unfold nR. apply not_0_IZR. lia. Qed.

Lemma py_div_Ok (x y : R) : y ≠ 0%R → py_div x y = Ok (x / y)%R.
Proof. intros Hy. unfold py_div. by rewrite decide_False. Qed.

Lemma squared_distance_Ok (d_s d_t : R) (T H W t h w : nat) :
  d_t ≠ 0%R → t < T → h < H → w < W →
  squared_distance d_s d_t T H W t h w
  = Ok (spec_d_square d_s d_t T H W t h w).
Proof.
  intros Hdt Ht Hh Hw. unfold squared_distance.
  rewrite !py_div_Ok by (done || apply nR_neq_0; lia). done.
Qed.

Lemma spec_d_square_nonneg (d_s d_t : R) (T H W t h w : nat) :
  (0 <= spec_d_square d_s d_t T H W t h w)%R.
Proof.
  unfold spec_d_square. simpl.
  repeat apply Rplus_le_le_0_compat; apply pow2_ge_0.
Qed.

Section looping_filters.
Context (shape : list nat) (T H W : nat) (d_s d_t : R).
Hypothesis Hshape : last3 shape = Some (T, H, W).
Hypothesis Hds : d_s ≠ 0%R.
Hypothesis Hdt : d_t ≠ 0%R.

Lemma gaussian_low_pass_filter_spec :
  ∃ m, gaussian_low_pass_filter shape d_s d_t = Ok m ∧
       tshape m = shape ∧ wf m ∧
       ∀ idx t h w, idx ∈ indices shape → last3 idx = Some (t, h, w) →
         tget m idx = Some (spec_gaussian d_s d_t T H W t h w).
Proof using Hshape Hds Hdt.
  unfold gaussian_low_pass_filter.
  rewrite (trailing_dims_Some _ _ _ _ Hshape), bind_Ok. cbv beta iota zeta.
  rewrite decide_False by tauto.
  apply (fill_mask_spec shape T H W (spec_gaussian d_s d_t T H W));
    [done| |done|apply wf_zeros].
  intros t h w mask Ht Hh Hw. rewrite squared_distance_Ok, bind_Ok by done.
  assert (d_s ^ 2 ≠ 0)%R by by apply pow_nonzero.
  rewrite py_div_Ok, bind_Ok by lra. unfold spec_gaussian.
  do 2 f_equal. by field.
Qed.

Lemma butterworth_low_pass_filter_spec (n : nat) :
  ∃ m, butterworth_low_pass_filter shape n d_s d_t = Ok m ∧
       tshape m = shape ∧ wf m ∧
       ∀ idx t h w, idx ∈ indices shape → last3 idx = Some (t, h, w) →
         tget m idx = Some (spec_butterworth n d_s d_t T H W t h w).
Proof using Hshape Hds Hdt.
  unfold butterworth_low_pass_filter.
  rewrite (trailing_dims_Some _ _ _ _ Hshape), bind_Ok. cbv beta iota zeta.
  rewrite decide_False by tauto.
  apply (fill_mask_spec shape T H W (spec_butterworth n d_s d_t T H W));
    [done| |done|apply wf_zeros].
  intros t h w mask Ht Hh Hw. rewrite squared_distance_Ok, bind_Ok by done.
  assert (0 < d_s ^ 2)%R.
  { rewrite <-Rsqr_pow2. by apply Rsqr_pos_lt. }
  rewrite py_div_Ok, bind_Ok by lra.
  pose proof (spec_d_square_nonneg d_s d_t T H W t h w).
  assert (0 <= (spec_d_square d_s d_t T H W t h w / d_s ^ 2) ^ n)%R.
  { apply pow_le. apply Rmult_le_pos; [done|]. left. by apply Rinv_0_lt_compat. }
  rewrite py_div_Ok, bind_Ok by lra. done.
Qed.

Lemma ideal_low_pass_filter_spec :
  ∃ m, ideal_low_pass_filter shape d_s d_t = Ok m ∧
       tshape m = shape ∧ wf m ∧
       ∀ idx t h w, idx ∈ indices shape → last3 idx = Some (t, h, w) →
         tget m idx =
           Some (if Rle_dec (spec_d_square d_s d_t T H W t h w) (d_s * 2)
                 then 1%R else 0%R).
Proof using Hshape Hds Hdt.
  unfold ideal_low_pass_filter.
  rewrite (trailing_dims_Some _ _ _ _ Hshape), bind_Ok. cbv beta iota zeta.
  rewrite decide_False by tauto.
  apply (fill_mask_spec shape T H W (λ t h w,
    if Rle_dec (spec_d_square d_s d_t T H W t h w) (d_s * 2)
    then 1%R else 0%R)); [done| |done|apply wf_zeros].
  intros t h w mask Ht Hh Hw. by rewrite squared_distance_Ok, bind_Ok by done.
Qed.
End looping_filters.

(** ** The degenerate cutoffs and totality *)

Section zero_cutoff.
Context (shape : list nat) (T H W : nat) (d_s d_t : R).
Hypothesis Hshape : last3 shape = Some (T, H, W).
Hypothesis Hzero : d_s = 0%R ∨ d_t = 0%R.

Lemma gaussian_zero_cutoff :
  gaussian_low_pass_filter shape d_s d_t = Ok (torch_zeros shape).
Proof using Hshape Hzero.
  unfold gaussian_low_pass_filter.
  rewrite (trailing_dims_Some _ _ _ _ Hshape), bind_Ok. cbv beta iota zeta.
  by rewrite decide_True.
Qed.

Lemma butterworth_zero_cutoff (n : nat) :
  butterworth_low_pass_filter shape n d_s d_t = Ok (torch_zeros shape).
Proof using Hshape Hzero.
  unfold butterworth_low_pass_filter.
  rewrite (trailing_dims_Some _ _ _ _ Hshape), bind_Ok. cbv beta iota zeta.
  by rewrite decide_True.
Qed.

Lemma ideal_zero_cutoff :
  ideal_low_pass_filter shape d_s d_t = Ok (torch_zeros shape).
Proof using Hshape Hzero.
  unfold ideal_low_pass_filter.
  rewrite (trailing_dims_Some _ _ _ _ Hshape), bind_Ok. cbv beta iota zeta.
  by rewrite decide_True.
Qed.

Lemma box_zero_cutoff :
  box_low_pass_filter shape d_s d_t = Ok (torch_zeros shape).
Proof using Hshape Hzero.
  unfold box_low_pass_filter.
  rewrite (trailing_dims_Some _ _ _ _ Hshape), bind_Ok. cbv beta iota zeta.
  by rewrite decide_True.
Qed.
End zero_cutoff.

(** With at least three dimensions every filter returns a mask of the
    shape it was given, whatever the cutoffs. *)
Section totality.
Context (shape : list nat) (T H W : nat) (d_s d_t : R).
Hypothesis Hshape : last3 shape = Some (T, H, W).

Lemma zeros_returns_shape : returns_shape shape (Ok (torch_zeros shape)).
Proof. exists (torch_zeros shape). split_and!; [done..|apply wf_zeros]. Qed.

Lemma gaussian_returns_shape :
  returns_shape shape (gaussian_low_pass_filter shape d_s d_t).
Proof using Hshape.
  destruct (decide (d_s = 0%R ∨ d_t = 0%R)) as [Hz|Hz].
  - rewrite (gaussian_zero_cutoff _ _ _ _ _ _ Hshape Hz).
    apply zeros_returns_shape.
  - destruct (gaussian_low_pass_filter_spec shape T H W d_s d_t)
      as (m & ? & ? & ? & _); [done|tauto|tauto|]. by exists m.
Qed.

Lemma butterworth_returns_shape (n : nat) :
  returns_shape shape (butterworth_low_pass_filter shape n d_s d_t).
Proof using Hshape.
  destruct (decide (d_s = 0%R ∨ d_t = 0%R)) as [Hz|Hz].
  - rewrite (butterworth_zero_cutoff _ _ _ _ _ _ Hshape Hz).
    apply zeros_returns_shape.
  - destruct (butterworth_low_pass_filter_spec shape T H W d_s d_t)
      with (n := n) as (m & ? & ? & ? & _); [done|tauto|tauto|]. by exists m.
Qed.

Lemma ideal_returns_shape :
  returns_shape shape (ideal_low_pass_filter shape d_s d_t).
Proof using Hshape.
  destruct (decide (d_s = 0%R ∨ d_t = 0%R)) as [Hz|Hz].
  - rewrite (ideal_zero_cutoff _ _ _ _ _ _ Hshape Hz).
    apply zeros_returns_shape.
  - destruct (ideal_low_pass_filter_spec shape T H W d_s d_t)
      as (m & ? & ? & ? & _); [done|tauto|tauto|]. by exists m.
Qed.

Lemma box_returns_shape :
  returns_shape shape (box_low_pass_filter shape d_s d_t).
Proof using Hshape.
  destruct (decide (d_s = 0%R ∨ d_t = 0%R)) as [Hz|Hz].
  - rewrite (box_zero_cutoff _ _ _ _ _ _ Hshape Hz).
    apply zeros_returns_shape.
  - destruct (box_low_pass_filter_spec shape T H W d_s d_t)
      as (m & ? & ? & ? & _); [done|tauto|tauto|]. by exists m.
Qed.
End totality.

(** ** The dispatcher *)

Lemma recognized_methods_cases (s : string) :
  s ∈ recognized_methods ↔
  s = "gaussian" ∨ s = "ideal" ∨ s = "box" ∨ s = "butterworth".
Proof. unfold recognized_methods. rewrite !elem_of_cons, elem_of_nil. tauto. Qed.

Lemma get_freq_filter_gaussian shape device (p : params.t) :
  params.method p = "gaussian" →
  get_freq_filter shape device p =
    gaussian_low_pass_filter shape (params.d_s p) (params.d_t p).
Proof.
  intros Hm. unfold get_freq_filter. rewrite Hm. simpl. apply bind_id.
Qed.

Lemma get_freq_filter_ideal shape device (p : params.t) :
  params.method p = "ideal" →
  get_freq_filter shape device p =
    ideal_low_pass_filter shape (params.d_s p) (params.d_t p).
Proof.
  intros Hm. unfold get_freq_filter. rewrite Hm. simpl. apply bind_id.
Qed.

Lemma get_freq_filter_box shape device (p : params.t) :
  params.method p = "box" →
  get_freq_filter shape device p =
    box_low_pass_filter shape (params.d_s p) (params.d_t p).
Proof.
  intros Hm. unfold get_freq_filter. rewrite Hm. simpl. apply bind_id.
Qed.

Lemma get_freq_filter_butterworth shape device (p : params.t) :
  params.method p = "butterworth" →
  get_freq_filter shape device p =
    butterworth_low_pass_filter shape (params.n p) (params.d_s p)
      (params.d_t p).
Proof.
  intros Hm. unfold get_freq_filter. rewrite Hm. simpl. apply bind_id.
Qed.

Lemma get_freq_filter_unrecognized shape device (p : params.t) :
  params.method p ∉ recognized_methods →
  get_freq_filter shape device p = Raise NotImplementedError.
Proof.
  rewrite recognized_methods_cases. intros Hm. unfold get_freq_filter.
  rewrite !decide_False by tauto. done.
Qed.

Lemma get_freq_filter_returns_shape shape T H W device (p : params.t) :
  last3 shape = Some (T, H, W) →
  params.method p ∈ recognized_methods →
  returns_shape shape (get_freq_filter shape device p).
Proof.
  intros Hs [Hm|[Hm|[Hm|Hm]]]%recognized_methods_cases.
  - rewrite get_freq_filter_gaussian by done. by eapply gaussian_returns_shape.
  - rewrite get_freq_filter_ideal by done. by eapply ideal_returns_shape.
  - rewrite get_freq_filter_box by done. by eapply box_returns_shape.
  - rewrite get_freq_filter_butterworth by done.
    by eapply butterworth_returns_shape.
Qed.

(** ** Concrete thresholds and slices *)

Ltac nR_eval :=
  unfold nR;
  repeat match goal with
  | |- context [Z.of_nat ?k] =>
      let z := eval vm_compute in (Z.of_nat k) in
      progress change (Z.of_nat k) with z
  end.

Lemma box_threshold_4_quarter : box_threshold 4 (1 / 4) = 0%Z.
Proof. unfold box_threshold. rewrite (py_round_half _ 0); [done|]. nR_eval. lra. Qed.

Lemma box_threshold_12_half : box_threshold 12 (1 / 2) = 3%Z.
Proof. unfold box_threshold. apply py_round_below. nR_eval. lra. Qed.

Lemma box_threshold_2_one : box_threshold 2 1 = 1%Z.
Proof. unfold box_threshold. apply py_round_below. nR_eval. lra. Qed.

Lemma in_slice_empty (c : Z) (n i : nat) : in_slice (c - 0) (c + 0) n i = false.
Proof.
  unfold in_slice. rewrite Z.sub_0_r, Z.add_0_r.
  apply andb_false_iff.
  destruct (decide (adjust_index c (Z.of_nat n) ≤ Z.of_nat i)%Z).
  - right. apply bool_decide_eq_false. lia.
  - left. by apply bool_decide_eq_false.
Qed.

Lemma box_selects_zero_threshold (T H W : nat) (d_s d_t : R) (t h w : nat) :
  box_threshold T d_t = 0%Z ∨ box_threshold H d_s = 0%Z →
  box_selects T H W d_s d_t t h w = false.
Proof.
  unfold box_selects. intros [-> | ->]; rewrite !in_slice_empty.
  - done.
  - by rewrite andb_false_r.
Qed.

Lemma box_zero_threshold (shape : list nat) (T H W : nat) (d_s d_t : R) :
  last3 shape = Some (T, H, W) →
  box_threshold T d_t = 0%Z ∨ box_threshold H d_s = 0%Z →
  box_low_pass_filter shape d_s d_t = Ok (torch_zeros shape).
Proof.
  intros Hs Hth.
  destruct (decide (d_s = 0%R ∨ d_t = 0%R)) as [Hz|Hz].
  { by eapply box_zero_cutoff. }
  destruct (box_low_pass_filter_spec shape T H W d_s d_t)
    as (m & -> & Hshape & Hwf & Hget); [done|tauto|tauto|].
  f_equal. apply tensor_ext; [done|apply wf_zeros|done|].
  rewrite Hshape. intros idx Hidx.
  destruct (last3_index _ _ _ _ _ Hidx Hs) as (t & h & w & Hl & _).
  rewrite (Hget _ _ _ _ Hidx Hl), tget_zeros by done.
  by rewrite box_selects_zero_threshold.
Qed.

(** A slice whose start is not negative selects what it reads. *)
Lemma in_slice_centred (c th : Z) (n i : nat) :
  (0 ≤ th ≤ c)%Z → (c ≤ Z.of_nat n)%Z → i < n →
  in_slice (c - th) (c + th) n i = true ↔
  (c - th ≤ Z.of_nat i < c + th)%Z.
Proof.
  intros Hth Hc Hi. unfold in_slice, adjust_index.
  rewrite andb_true_iff, !bool_decide_eq_true.
  destruct (Z.ltb_spec (c - th) 0), (Z.ltb_spec (c + th) 0); lia.
Qed.

(** Where no slice of the box filter starts below 0, the selected block is
    the centred block of the specification. *)
Lemma box_selects_centred (T H W : nat) (d_s d_t : R) (t h w : nat) :
  t < T → h < H → w < W →
  (0 ≤ box_threshold T d_t ≤ Z.of_nat (T / 2))%Z →
  (0 ≤ box_threshold H d_s ≤ Z.of_nat (H / 2))%Z →
  (box_threshold H d_s ≤ Z.of_nat (W / 2))%Z →
  box_selects T H W d_s d_t t h w = true ↔ spec_box_block T H W d_s d_t t h w.
Proof.
  intros Ht Hh Hw HT HH HW. unfold box_selects, spec_box_block.
  fold (box_threshold H d_s). fold (box_threshold T d_t).
  pose proof (Nat.Div0.div_le_upper_bound T 2 T) as HT2.
  pose proof (Nat.Div0.div_le_upper_bound H 2 H) as HH2.
  pose proof (Nat.Div0.div_le_upper_bound W 2 W) as HW2.
  rewrite !andb_true_iff, !in_slice_centred by lia. tauto.
Qed.

Ltac solve_index :=
  apply elem_of_indices; repeat (constructor; [simpl; lia|]); constructor.

(** ** Complex arithmetic and finite sums *)

Ltac complex_eq :=
  repeat match goal with z : complex |- _ => destruct z end;
  unfold Cadd, Cmul, Cscale, RtoC, Re; simpl;
  f_equal; try ring; try lra.

Lemma Cadd_comm (z w : complex) : Cadd z w = Cadd w z.
Proof. complex_eq. Qed.

Lemma Cadd_assoc (z w u : complex) : Cadd z (Cadd w u) = Cadd (Cadd z w) u.
Proof. complex_eq. Qed.

Lemma Cadd_0_l (z : complex) : Cadd (RtoC 0) z = z.
Proof. complex_eq. Qed.

Lemma Cadd_0_r (z : complex) : Cadd z (RtoC 0) = z.
Proof. complex_eq. Qed.

Lemma Cmul_comm (z w : complex) : Cmul z w = Cmul w z.
Proof. complex_eq. Qed.

Lemma Cmul_assoc (z w u : complex) : Cmul z (Cmul w u) = Cmul (Cmul z w) u.
Proof. complex_eq. Qed.

Lemma Cmul_0_r (z : complex) : Cmul z (RtoC 0) = RtoC 0.
Proof. complex_eq. Qed.

Lemma Cmul_1_r (z : complex) : Cmul z (RtoC 1) = z.
Proof. complex_eq. Qed.

Lemma Cmul_add_distr_r (z w u : complex) :
  Cmul (Cadd z w) u = Cadd (Cmul z u) (Cmul w u).
Proof. complex_eq. Qed.

Lemma Cmul_add_distr_l (z w u : complex) :
  Cmul u (Cadd z w) = Cadd (Cmul u z) (Cmul u w).
Proof. complex_eq. Qed.

Lemma Csum_ext (n : nat) (f g : nat → complex) :
  (∀ k, k < n → f k = g k) → Csum n f = Csum n g.
Proof.
  induction n as [|n IH]; intros Hfg; simpl; [done|].
  rewrite IH, Hfg by (intros; apply Hfg || idtac; lia). done.
Qed.

Lemma Csum_0 (n : nat) : Csum n (λ _, RtoC 0) = RtoC 0.
Proof. induction n as [|n IH]; simpl; [done|]. by rewrite IH, Cadd_0_l. Qed.

Lemma Csum_add (n : nat) (f g : nat → complex) :
  Csum n (λ k, Cadd (f k) (g k)) = Cadd (Csum n f) (Csum n g).
Proof.
  induction n as [|n IH]; simpl; [by rewrite Cadd_0_l|].
  rewrite IH. complex_eq.
Qed.

Lemma Csum_mul_r (n : nat) (f : nat → complex) (c : complex) :
  Csum n (λ k, Cmul (f k) c) = Cmul (Csum n f) c.
Proof.
  induction n as [|n IH]; simpl; [complex_eq|].
  by rewrite IH, Cmul_add_distr_r.
Qed.

Lemma Csum_mul_l (n : nat) (f : nat → complex) (c : complex) :
  Csum n (λ k, Cmul c (f k)) = Cmul c (Csum n f).
Proof.
  induction n as [|n IH]; simpl; [complex_eq|].
  by rewrite IH, Cmul_add_distr_l.
Qed.

(** The order of two finite sums can be exchanged. *)
Lemma Csum_exchange (n m : nat) (f : nat → nat → complex) :
  Csum n (λ i, Csum m (λ j, f i j)) = Csum m (λ j, Csum n (λ i, f i j)).
Proof.
  induction n as [|n IH]; simpl.
  - by rewrite Csum_0.
  - by rewrite IH, Csum_add.
Qed.

(** A sum with a single non-zero term. *)
Lemma Csum_single (n k0 : nat) (f : nat → complex) :
  k0 < n → (∀ k, k < n → k ≠ k0 → f k = RtoC 0) → Csum n f = f k0.
Proof.
  induction n as [|n IH]; intros Hk0 Hf; [lia|]. simpl.
  destruct (decide (k0 = n)) as [->|Hne].
  - rewrite (Csum_ext n f (λ _, RtoC 0)) by (intros; apply Hf; lia).
    by rewrite Csum_0, Cadd_0_l.
  - rewrite IH by (lia || intros; apply Hf; lia).
    rewrite (Hf n) by lia. apply Cadd_0_r.
Qed.

(** ** Roots of unity *)

Lemma nR_S (k : nat) : nR (S k) = (nR k + 1)%R.
Proof. unfold nR. by rewrite Nat2Z.inj_succ, succ_IZR. Qed.

Lemma nR_0 : nR 0 = 0%R.
Proof. done. Qed.

Lemma nR_lt (j k : nat) : j < k → (nR j < nR k)%R.
Proof. intros Hjk. unfold nR. apply IZR_lt. lia. Qed.

Lemma nR_nonneg (k : nat) : (0 <= nR k)%R.
Proof. unfold nR. apply IZR_le. lia. Qed.

Lemma cis_0 : cis 0 = RtoC 1.
Proof. unfold cis, RtoC. by rewrite cos_0, sin_0. Qed.

Lemma cis_add (a b : R) : cis (a + b) = Cmul (cis a) (cis b).
Proof.
  unfold cis, Cmul. simpl. rewrite cos_plus, sin_plus. f_equal; ring.
Qed.

Lemma cis_2PI_nat (k : nat) : cis (2 * PI * nR k) = RtoC 1.
Proof.
  unfold cis, RtoC, nR. rewrite <-INR_IZR_INZ.
  replace (2 * PI * INR k)%R with (0 + 2 * INR k * PI)%R by ring.
  by rewrite cos_period, sin_period, cos_0, sin_0.
Qed.

Lemma cis_neg_2PI_nat (k : nat) : cis (- (2 * PI * nR k)) = RtoC 1.
Proof.
  pose proof (cis_2PI_nat k) as Hk. unfold cis, RtoC in *.
  injection Hk as Hc Hs. rewrite cos_neg, sin_neg, Hc, Hs. f_equal. ring.
Qed.

(** The geometric sum of the powers of [exp(iθ)]. *)
Lemma Csum_cis_geometric (n : nat) (θ : R) :
  Cmul (Cadd (cis θ) (RtoC (-1))) (Csum n (λ k, cis (nR k * θ)))
  = Cadd (cis (nR n * θ)) (RtoC (-1)).
Proof.
  induction n as [|n IH]; simpl.
  - rewrite nR_0, Rmult_0_l, cis_0. complex_eq.
  - rewrite Cmul_add_distr_l, IH, nR_S.
    replace ((nR n + 1) * θ)%R with (nR n * θ + θ)%R by ring.
    rewrite cis_add. generalize (cis (nR n * θ)), (cis θ). intros z w.
    complex_eq.
Qed.

Lemma Csum_cis_root (N : nat) (θ : R) :
  cos θ ≠ 1%R → cis (nR N * θ) = RtoC 1 →
  Csum N (λ k, cis (nR k * θ)) = RtoC 0.
Proof.
  intros Hcos Hroot. pose proof (Csum_cis_geometric N θ) as Hgeo.
  rewrite Hroot in Hgeo. revert Hgeo.
  generalize (Csum N (λ k, cis (nR k * θ))). intros [c d].
  unfold cis, Cmul, Cadd, RtoC. simpl. intros [= H1 H2].
  set (a := (cos θ + -1)%R) in *. set (b := (sin θ + 0)%R) in *.
  assert (a ≠ 0%R) as Ha by (unfold a; lra).
  assert ((a * a + b * b) * c = 0)%R as Hc.
  { replace ((a * a + b * b) * c)%R
      with (a * (a * c - b * d) + b * (a * d + b * c))%R by ring.
    rewrite H1, H2. ring. }
  assert ((a * a + b * b) * d = 0)%R as Hd.
  { replace ((a * a + b * b) * d)%R
      with (a * (a * d + b * c) - b * (a * c - b * d))%R by ring.
    rewrite H1, H2. ring. }
  assert (0 < a * a + b * b)%R as Hpos by nra.
  f_equal; [apply Rmult_integral in Hc|apply Rmult_integral in Hd]; lra.
Qed.

Lemma Rdiv_lt_1 (x c : R) : (0 < c)%R → (x < c)%R → (x / c < 1)%R.
Proof.
  intros Hc Hx. apply (Rmult_lt_reg_r c); [done|].
  unfold Rdiv. rewrite Rmult_assoc, Rinv_l by lra. lra.
Qed.

(** [exp(2πi·m/N)] is not 1 when [0 < |m| < N]. *)
Lemma cos_root_neq_1 (N j j0 : nat) :
  j < N → j0 < N → j ≠ j0 →
  cos (2 * PI * (nR j0 - nR j) / nR N) ≠ 1%R.
Proof.
  intros Hj Hj0 Hne.
  pose proof (nR_lt _ _ Hj). pose proof (nR_lt _ _ Hj0).
  pose proof (nR_nonneg j). pose proof (nR_nonneg j0).
  pose proof PI_RGT_0 as Hpi.
  set (y := (PI * ((nR j0 - nR j) / nR N))%R).
  replace (2 * PI * (nR j0 - nR j) / nR N)%R with (2 * y)%R
    by (unfold y; field; lra).
  rewrite cos_2a_sin. cut (sin y ≠ 0%R); [intros Hs; nra|].
  destruct (decide (j < j0)) as [Hlt|Hge].
  - pose proof (nR_lt _ _ Hlt).
    assert (0 < (nR j0 - nR j) / nR N < 1)%R as [? ?].
    { split; [apply Rdiv_lt_0_compat; lra|].
      apply Rdiv_lt_1; lra. }
    assert (0 < sin y)%R; [|lra]. apply sin_gt_0; unfold y; nra.
  - assert (j0 < j) as Hlt by lia. pose proof (nR_lt _ _ Hlt).
    assert (0 < (nR j - nR j0) / nR N < 1)%R as [? ?].
    { split; [apply Rdiv_lt_0_compat; lra|].
      apply Rdiv_lt_1; lra. }
    assert (0 < sin (- y))%R as Hs.
    { apply sin_gt_0; unfold y.
      - replace (- (PI * ((nR j0 - nR j) / nR N)))%R
          with (PI * ((nR j - nR j0) / nR N))%R by (field; lra). nra.
      - replace (- (PI * ((nR j0 - nR j) / nR N)))%R
          with (PI * ((nR j - nR j0) / nR N))%R by (field; lra). nra. }
    rewrite sin_neg in Hs. lra.
Qed.

Lemma cis_full_turns (N j j0 : nat) :
  0 < N → cis (nR N * (2 * PI * (nR j0 - nR j) / nR N)) = RtoC 1.
Proof.
  intros HN. pose proof (nR_lt _ _ HN). rewrite nR_0 in *.
  replace (nR N * (2 * PI * (nR j0 - nR j) / nR N))%R
    with (2 * PI * nR j0 + - (2 * PI * nR j))%R by (field; lra).
  rewrite cis_add, cis_2PI_nat, cis_neg_2PI_nat. complex_eq.
Qed.

Lemma Csum_const (n : nat) (c : complex) :
  Csum n (λ _, c) = Cscale c (nR n).
Proof.
  induction n as [|n IH]; simpl; [rewrite nR_0; complex_eq|].
  rewrite IH, nR_S. complex_eq.
Qed.

Lemma Csum_scale (n : nat) (f : nat → complex) (r : R) :
  Csum n (λ k, Cscale (f k) r) = Cscale (Csum n f) r.
Proof.
  induction n as [|n IH]; simpl; [complex_eq|]. rewrite IH.
  generalize (Csum n f), (f n). intros z w. complex_eq.
Qed.

(** The forward and the backward kernel are inverse to each other. *)
Lemma dft_kernel_orthogonal (N j j0 : nat) :
  j < N → j0 < N →
  Csum N (λ k, Cmul (dft_kernel false N j k) (dft_kernel true N k j0))
  = if decide (j = j0) then RtoC 1 else RtoC 0.
Proof.
  intros Hj Hj0. assert (0 < N) as HN by lia.
  pose proof (nR_lt _ _ HN) as HNR. rewrite nR_0 in HNR.
  set (θ := (2 * PI * (nR j0 - nR j) / nR N)%R).
  rewrite (Csum_ext _ _ (λ k, Cscale (cis (nR k * θ)) (1 / nR N))).
  2:{ intros k _. unfold dft_kernel.
      replace (nR k * θ)%R
        with (- (2 * PI * nR j * nR k / nR N) + 2 * PI * nR k * nR j0 / nR N)%R
        by (unfold θ; field; lra).
      rewrite cis_add.
      generalize (cis (- (2 * PI * nR j * nR k / nR N))),
        (cis (2 * PI * nR k * nR j0 / nR N)).
      intros z w. complex_eq. }
  rewrite Csum_scale. case_decide as Heq.
  - subst j0. unfold θ.
    rewrite (Csum_ext _ _ (λ _, RtoC 1)).
    2:{ intros k _. rewrite <-cis_0. f_equal. field. lra. }
    rewrite Csum_const. unfold Cscale, RtoC. simpl. f_equal; field; lra.
  - rewrite Csum_cis_root.
    + complex_eq.
    + by apply cos_root_neq_1.
    + by apply cis_full_turns.
Qed.

(** ** Operations along one axis *)

Lemma index_insert (s idx : list nat) (a j : nat) :
  idx ∈ indices s → j < s !!! a → <[a:=j]> idx ∈ indices s.
Proof.
  rewrite !elem_of_indices. intros Hidx Hj.
  destruct (decide (a < length s)) as [Ha|Ha].
  - rewrite <-(list_insert_id s a (s !!! a))
      by by apply list_lookup_lookup_total_lt.
    by apply Forall2_insert.
  - rewrite list_insert_ge; [done|].
    apply Forall2_length in Hidx. lia.
Qed.

Lemma index_lookup_lt (s idx : list nat) (a : nat) :
  idx ∈ indices s → a < length s → idx !!! a < s !!! a.
Proof.
  rewrite elem_of_indices. intros Hidx Ha.
  pose proof (Forall2_length _ _ _ Hidx) as Hlen.
  eapply (Forall2_lookup_lr _ _ _ a); [done|..];
    apply list_lookup_lookup_total_lt; lia.
Qed.

Lemma index_length (s idx : list nat) : idx ∈ indices s → length idx = length s.
Proof. rewrite elem_of_indices. apply Forall2_length. Qed.

Lemma index_insert_same (idx : list nat) (a : nat) :
  <[a:=idx !!! a]> idx = idx.
Proof.
  apply list_insert_id'. intros Ha. by apply list_lookup_lookup_total_lt.
Qed.

Lemma tgetd_tabulate {A} `{Inhabited A} (s : list nat) (f : list nat → A) idx :
  idx ∈ indices s → tgetd (tabulate s f) idx = f idx.
Proof. intros Hidx. unfold tgetd. by rewrite tget_tabulate. Qed.

Lemma tget_tgetd {A} `{Inhabited A} (m : tensor A) idx :
  wf m → idx ∈ indices (tshape m) → tget m idx = Some (tgetd m idx).
Proof.
  intros Hwf Hidx. unfold tgetd.
  by destruct (tget_is_Some m idx Hwf Hidx) as [x ->].
Qed.

(** Two tensors built by [tabulate] on one shape are equal when the
    tabulated functions agree on the indices of the shape. *)
Lemma tabulate_ext {A} (s : list nat) (f g : list nat → A) :
  (∀ idx, idx ∈ indices s → f idx = g idx) → tabulate s f = tabulate s g.
Proof.
  intros Hfg. unfold tabulate. f_equal. apply list_fmap_ext.
  intros i idx Hi. apply Hfg. by eapply list_elem_of_lookup_2.
Qed.

Lemma tabulate_tgetd {A} `{Inhabited A} (m : tensor A) :
  wf m → tabulate (tshape m) (tgetd m) = m.
Proof.
  intros Hwf. apply tensor_ext; [apply wf_tabulate|done|done|].
  simpl. intros idx Hidx. by rewrite tget_tabulate, tget_tgetd.
Qed.

Lemma axis_linear_get (K : nat → nat → nat → complex) (m : tensor complex)
    (a : nat) idx :
  idx ∈ indices (tshape m) →
  tgetd (axis_linear K a m) idx
  = Csum (tshape m !!! a)
      (λ j, Cmul (tgetd m (<[a:=j]> idx)) (K (tshape m !!! a) j (idx !!! a))).
Proof. intros Hidx. unfold axis_linear. by rewrite tgetd_tabulate. Qed.

Lemma roll_axis_get (sh : nat → nat) (m : tensor complex) (a : nat) idx :
  idx ∈ indices (tshape m) →
  tgetd (roll_axis sh a m) idx
  = tgetd m (<[a:=(idx !!! a + (tshape m !!! a - sh (tshape m !!! a)))
                  `mod` (tshape m !!! a)]> idx).
Proof. intros Hidx. unfold roll_axis. by rewrite tgetd_tabulate. Qed.

Section axis_linear.
Context (K1 K2 : nat → nat → nat → complex) (m : tensor complex).

(** Two kernels that are inverse to each other cancel on one axis. *)
Lemma axis_linear_inverse (a : nat) :
  wf m → a < length (tshape m) →
  (∀ N j j0, j < N → j0 < N →
     Csum N (λ k, Cmul (K1 N j k) (K2 N k j0))
     = if decide (j = j0) then RtoC 1 else RtoC 0) →
  axis_linear K2 a (axis_linear K1 a m) = m.
Proof.
  intros Hwf Ha Hinv. etrans; [|exact (tabulate_tgetd m Hwf)].
  unfold axis_linear at 1. simpl. apply tabulate_ext. intros idx Hidx.
  set (N := tshape m !!! a). set (k0 := idx !!! a).
  assert (k0 < N) as Hk0 by by apply index_lookup_lt.
  pose proof (index_length _ _ Hidx) as Hlen.
  rewrite (Csum_ext _ _ (λ k, Csum N (λ j,
     Cmul (tgetd m (<[a:=j]> idx)) (Cmul (K1 N j k) (K2 N k k0))))).
  2:{ intros k Hk. rewrite axis_linear_get by by apply index_insert.
      rewrite <-Csum_mul_r. apply Csum_ext. intros j Hj.
      rewrite list_insert_insert_eq, list_lookup_total_insert_eq by lia.
      by rewrite Cmul_assoc. }
  rewrite Csum_exchange.
  rewrite (Csum_ext _ _ (λ j, Cmul (tgetd m (<[a:=j]> idx))
     (if decide (j = k0) then RtoC 1 else RtoC 0))).
  2:{ intros j Hj. by rewrite Csum_mul_l, Hinv. }
  rewrite (Csum_single _ k0) by
    (done || intros k _ Hne; rewrite decide_False by done; apply Cmul_0_r).
  rewrite decide_True by done. unfold k0.
  by rewrite index_insert_same, Cmul_1_r.
Qed.

(** Linear maps along different axes commute. *)
Lemma axis_linear_comm (a b : nat) :
  a ≠ b → a < length (tshape m) → b < length (tshape m) →
  axis_linear K2 b (axis_linear K1 a m) = axis_linear K1 a (axis_linear K2 b m).
Proof.
  intros Hab Ha Hb. unfold axis_linear at 1 3. simpl.
  apply tabulate_ext. intros idx Hidx.
  pose proof (index_length _ _ Hidx) as Hlen.
  set (Na := tshape m !!! a). set (Nb := tshape m !!! b).
  rewrite (Csum_ext _ _ (λ j2, Csum Na (λ j1,
     Cmul (Cmul (tgetd m (<[a:=j1]> (<[b:=j2]> idx))) (K1 Na j1 (idx !!! a)))
          (K2 Nb j2 (idx !!! b))))).
  2:{ intros j2 Hj2. rewrite axis_linear_get by by apply index_insert.
      rewrite <-Csum_mul_r. apply Csum_ext. intros j1 Hj1.
      by rewrite list_lookup_total_insert_ne. }
  rewrite Csum_exchange. apply Csum_ext. intros j1 Hj1.
  rewrite axis_linear_get by by apply index_insert.
  rewrite <-Csum_mul_r. apply Csum_ext. intros j2 Hj2.
  rewrite list_lookup_total_insert_ne by done.
  rewrite (list_insert_insert_ne _ a b) by done.
  rewrite <-!Cmul_assoc. f_equal. apply Cmul_comm.
Qed.
End axis_linear.

Section roll_axis.
Context (sh1 sh2 : nat → nat) (m : tensor complex).

(** Two rolls whose shifts add up to the length of the axis cancel. *)
Lemma roll_axis_inverse (a : nat) :
  wf m → a < length (tshape m) →
  (∀ N, sh1 N ≤ N ∧ sh2 N ≤ N ∧ sh1 N + sh2 N = N) →
  roll_axis sh2 a (roll_axis sh1 a m) = m.
Proof.
  intros Hwf Ha Hsh. etrans; [|exact (tabulate_tgetd m Hwf)].
  unfold roll_axis at 1. simpl. apply tabulate_ext. intros idx Hidx.
  set (N := tshape m !!! a). set (k0 := idx !!! a).
  assert (k0 < N) as Hk0 by by apply index_lookup_lt.
  pose proof (index_length _ _ Hidx) as Hlen.
  destruct (Hsh N) as (H1 & H2 & H12).
  rewrite roll_axis_get.
  2:{ apply index_insert; [done|]. apply Nat.mod_upper_bound. lia. }
  fold N. rewrite list_insert_insert_eq, list_lookup_total_insert_eq by lia.
  rewrite Nat.Div0.add_mod_idemp_l.
  replace (k0 + (N - sh2 N) + (N - sh1 N)) with (k0 + 1 * N) by lia.
  rewrite Nat.Div0.mod_add, Nat.mod_small by done.
  unfold k0. by rewrite index_insert_same.
Qed.

(** Rolls along different axes commute. *)
Lemma roll_axis_comm (a b : nat) :
  a ≠ b → a < length (tshape m) → b < length (tshape m) →
  roll_axis sh2 b (roll_axis sh1 a m) = roll_axis sh1 a (roll_axis sh2 b m).
Proof.
  intros Hab Ha Hb. unfold roll_axis at 1 3. simpl.
  apply tabulate_ext. intros idx Hidx.
  pose proof (index_length _ _ Hidx) as Hlen.
  pose proof (index_lookup_lt _ _ a Hidx Ha).
  pose proof (index_lookup_lt _ _ b Hidx Hb).
  rewrite !roll_axis_get
    by (apply index_insert; [done|]; apply Nat.mod_upper_bound; lia).
  rewrite !list_lookup_total_insert_ne by done.
  by rewrite list_insert_insert_ne.
Qed.
End roll_axis.

(** ** Operations along the last three axes *)

Lemma resolve_dim_negative (r k : nat) :
  0 < k ≤ r → resolve_dim r (- Z.of_nat k) = Ok (r - k).
Proof.
  intros Hk. unfold resolve_dim. rewrite decide_True by lia. f_equal.
  rewrite <-(Z.mod_add _ 1) by lia. rewrite Z.mod_small by lia. lia.
Qed.

Lemma resolve_last_three_dims (r : nat) :
  3 ≤ r → resolve_dims r last_three_dims = Ok [r - 3; r - 2; r - 1].
Proof.
  intros Hr.
  pose proof (resolve_dim_negative r 3) as H3.
  pose proof (resolve_dim_negative r 2) as H2.
  pose proof (resolve_dim_negative r 1) as H1.
  change (- Z.of_nat 3)%Z with (-3)%Z in H3.
  change (- Z.of_nat 2)%Z with (-2)%Z in H2.
  change (- Z.of_nat 1)%Z with (-1)%Z in H1.
  unfold last_three_dims. cbn [resolve_dims].
  rewrite H3, H2, H1 by lia. done.
Qed.

Lemma along_last_three_dims (op : nat → tensor complex → tensor complex)
    (m : tensor complex) :
  3 ≤ length (tshape m) →
  along_dims op last_three_dims m
  = Ok (op (length (tshape m) - 3)
          (op (length (tshape m) - 2) (op (length (tshape m) - 1) m))).
Proof.
  intros Hr. unfold along_dims. by rewrite resolve_last_three_dims.
Qed.

(** Two families of axis operations that preserve the shape, cancel on
    each axis and commute across axes also cancel along the last three
    axes. *)
Section cancel.
Context (op op' : nat → tensor complex → tensor complex).
Hypothesis op_shape : ∀ a m, tshape (op a m) = tshape m.
Hypothesis op_wf : ∀ a m, wf (op a m).
Hypothesis op'_shape : ∀ a m, tshape (op' a m) = tshape m.
Hypothesis op_inverse :
  ∀ a m, wf m → a < length (tshape m) → op' a (op a m) = m.
Hypothesis op_comm :
  ∀ a b m, a ≠ b → a < length (tshape m) → b < length (tshape m) →
    op' b (op a m) = op a (op' b m).

Lemma along_last_three_dims_cancel (m : tensor complex) :
  wf m → 3 ≤ length (tshape m) →
  ∃ m', along_dims op last_three_dims m = Ok m' ∧
        tshape m' = tshape m ∧ wf m' ∧
        along_dims op' last_three_dims m' = Ok m.
Proof using All.
  intros Hwf Hr. eexists. split; [by apply along_last_three_dims|].
  split; [by rewrite !op_shape|]. split; [apply op_wf|].
  rewrite along_last_three_dims by by rewrite !op_shape.
  rewrite !op_shape. f_equal.
  set (r := length (tshape m)) in *.
  rewrite (op_comm (r - 3) (r - 1)) by (rewrite ?op_shape; fold r; lia).
  rewrite (op_comm (r - 2) (r - 1)) by (rewrite ?op_shape; fold r; lia).
  rewrite (op_inverse (r - 1) m) by (done || fold r; lia).
  rewrite (op_comm (r - 3) (r - 2)) by (rewrite ?op_shape; fold r; lia).
  rewrite (op_inverse (r - 2) m) by (done || fold r; lia).
  by rewrite (op_inverse (r - 3) m) by (done || fold r; lia).
Qed.
End cancel.

Lemma last3_length (s : list nat) (T H W : nat) :
  last3 s = Some (T, H, W) → 3 ≤ length s.
Proof. intros [l' ->]%last3_Some. rewrite length_app. simpl. lia. Qed.

Lemma has_data_points_last_three (m : tensor complex) (T H W : nat) :
  last3 (tshape m) = Some (T, H, W) → 1 ≤ T → 1 ≤ H → 1 ≤ W →
  has_data_points m last_three_dims = Ok ().
Proof.
  intros Hs HT HH HW. unfold has_data_points.
  rewrite resolve_last_three_dims, bind_Ok by by eapply last3_length.
  apply last3_Some in Hs as [l' ->]. rewrite decide_True; [done|].
  rewrite length_app. simpl.
  repeat constructor.
  - replace (length l' + 3 - 3) with (length l' + 0) by lia.
    by rewrite lookup_total_app_r, Nat.add_comm, Nat.add_sub by lia.
  - replace (length l' + 3 - 2) with (length l' + 1) by lia.
    by rewrite lookup_total_app_r, Nat.add_comm, Nat.add_sub by lia.
  - replace (length l' + 3 - 1) with (length l' + 2) by lia.
    by rewrite lookup_total_app_r, Nat.add_comm, Nat.add_sub by lia.
Qed.

Lemma ifftn_fftn (m : tensor complex) (T H W : nat) :
  wf m → last3 (tshape m) = Some (T, H, W) → 1 ≤ T → 1 ≤ H → 1 ≤ W →
  ∃ m', fftn m last_three_dims = Ok m' ∧ tshape m' = tshape m ∧ wf m' ∧
        ifftn m' last_three_dims = Ok m.
Proof.
  intros Hwf Hs HT HH HW. unfold fftn, ifftn.
  rewrite (has_data_points_last_three m T H W), bind_Ok by done.
  cut (∃ m', along_dims (axis_linear (dft_kernel false)) last_three_dims m
             = Ok m' ∧ tshape m' = tshape m ∧ wf m' ∧
             along_dims (axis_linear (dft_kernel true)) last_three_dims m'
             = Ok m).
  { intros (m' & Hm' & Hs' & Hwf' & Hinv). exists m'. split_and!; try done.
    rewrite (has_data_points_last_three m' T H W), bind_Ok by by rewrite ?Hs'.
    done. }
  apply along_last_three_dims_cancel; try done; [| | |by eapply last3_length].
  - intros a m1. apply wf_tabulate.
  - intros a m1 Hwf1 Ha. apply axis_linear_inverse; [done..|].
    intros N j j0. apply dft_kernel_orthogonal.
  - intros a b m1. apply axis_linear_comm.
Qed.

Lemma ifftshift_fftshift (m : tensor complex) :
  wf m → 3 ≤ length (tshape m) →
  ∃ m', fftshift m last_three_dims = Ok m' ∧ tshape m' = tshape m ∧ wf m' ∧
        ifftshift m' last_three_dims = Ok m.
Proof.
  apply along_last_three_dims_cancel; try done.
  - intros a m1. apply wf_tabulate.
  - intros a m1 Hwf Ha. apply roll_axis_inverse; [done..|].
    intros N. pose proof (Nat.div_mod_eq N 2).
    pose proof (Nat.div_mod_eq (N + 1) 2).
    pose proof (Nat.mod_upper_bound N 2).
    pose proof (Nat.mod_upper_bound (N + 1) 2).
    assert ((N + 1) `mod` 2 = 1 - N `mod` 2).
    { rewrite Nat.Div0.add_mod by lia.
      destruct (N `mod` 2) as [|[|?]]; simpl; lia. }
    lia.
  - intros a b m1. apply roll_axis_comm.
Qed.

(** ** Broadcasting *)

Lemma broadcast_rev_same (r : list nat) : broadcast_rev r r = Some r.
Proof.
  induction r as [|d r IH]; [done|]. simpl.
  by rewrite decide_True, IH.
Qed.

Lemma broadcast_shapes_same (s : list nat) : broadcast_shapes s s = Some s.
Proof.
  unfold broadcast_shapes. rewrite broadcast_rev_same. simpl.
  by rewrite reverse_involutive.
Qed.

Lemma broadcast_index_same (s idx : list nat) :
  idx ∈ indices s → broadcast_index s idx = idx.
Proof.
  intros Hidx%elem_of_indices%Forall2_reverse. unfold broadcast_index.
  rewrite <-(reverse_involutive idx) at 2. f_equal.
  induction Hidx as [|i d ri rs Hid _ IH]; [done|]. simpl.
  rewrite IH. f_equal. case_decide; lia.
Qed.

Lemma broadcast_rev_index (ra rb ri : list nat) :
  broadcast_rev ra rb = Some ra → Forall2 lt ri ra →
  Forall2 lt (zip_with (λ d i, if decide (d = 1) then 0 else i) rb ri) rb.
Proof.
  intros Hb Hi. revert rb Hb.
  induction Hi as [|i da ri ra Hid _ IH]; intros [|db rb] Hb; simpl in *;
    try done; try by constructor.
  assert (broadcast_rev ra rb = Some ra ∧ (db = da ∨ db = 1)) as [Hr Hd].
  { repeat case_decide; destruct (broadcast_rev ra rb); simplify_eq/=; auto. }
  clear Hb. constructor; [case_decide; lia|by apply IH].
Qed.

(** An index of the broadcast shape reads inside the second operand. *)
Lemma broadcast_index_valid (sa sb idx : list nat) :
  broadcast_shapes sa sb = Some sa → idx ∈ indices sa →
  broadcast_index sb idx ∈ indices sb.
Proof.
  unfold broadcast_shapes, broadcast_index.
  intros Hb Hidx%elem_of_indices%Forall2_reverse.
  destruct (broadcast_rev (reverse sa) (reverse sb)) as [r|] eqn:Hr; [|done].
  simpl in Hb. injection Hb as Hb.
  assert (r = reverse sa) as -> by by rewrite <-Hb, reverse_involutive.
  apply elem_of_indices. rewrite <-(reverse_involutive sb) at 2.
  apply Forall2_reverse. by eapply broadcast_rev_index.
Qed.

(** ** The spectral mixer *)

Lemma spectrum_of_unique (m : tensor R) (s s' : tensor complex) :
  spectrum_of m s → spectrum_of m s' → s = s'.
Proof. intros (f & Hf & Hs) (f' & Hf' & Hs'). congruence. Qed.

Lemma spectrum_exists (m : tensor R) (T H W : nat) :
  wf m → last3 (tshape m) = Some (T, H, W) → 1 ≤ T → 1 ≤ H → 1 ≤ W →
  ∃ f s, fftn (tmap RtoC m) last_three_dims = Ok f ∧
         fftshift f last_three_dims = Ok s ∧
         tshape s = tshape m ∧ wf s ∧
         ifftshift s last_three_dims = Ok f ∧
         ifftn f last_three_dims = Ok (tmap RtoC m).
Proof.
  intros Hwf Hr HT HH HW.
  destruct (ifftn_fftn (tmap RtoC m) T H W) as (f & Hf & Hfs & Hfwf & Hif);
    [by apply wf_tmap|done..|].
  destruct (ifftshift_fftshift f) as (s & Hs & Hss & Hswf & His);
    [done|rewrite Hfs; by eapply last3_length|].
  exists f, s. split_and!; try done. by rewrite Hss.
Qed.

Lemma tmap_Re_RtoC (m : tensor R) : tmap Re (tmap RtoC m) = m.
Proof.
  destruct m as [s d]. unfold tmap. simpl. f_equal.
  rewrite <-list_fmap_compose. apply list_fmap_id.
Qed.

Lemma tgetd_tmap {A B} `{Inhabited A, Inhabited B} (f : A → B)
    (m : tensor A) idx (a : A) :
  tget m idx = Some a → tgetd (tmap f m) idx = f a.
Proof. intros Ha. unfold tgetd. by rewrite tget_tmap, Ha. Qed.

Lemma tget_elem_of {A} (m : tensor A) idx (a : A) :
  tget m idx = Some a → a ∈ tdata m.
Proof.
  unfold tget. destruct (ravel (tshape m) idx) as [o|]; [|done]. simpl.
  apply list_elem_of_lookup_2.
Qed.

(** The mixer returns [y] whenever the weighted sum of the two spectra is,
    at every frequency, the spectrum of [y]. *)
Lemma freq_mix_3d_select (x noise LPF y : tensor R) (T H W : nat) :
  wf x → wf noise → wf LPF → wf y →
  tshape noise = tshape x → tshape y = tshape x →
  last3 (tshape x) = Some (T, H, W) → 1 ≤ T → 1 ≤ H → 1 ≤ W →
  broadcast_shapes (tshape x) (tshape LPF) = Some (tshape x) →
  (∀ xs ns ys idx l,
     spectrum_of x xs → spectrum_of noise ns → spectrum_of y ys →
     idx ∈ indices (tshape x) →
     tget LPF (broadcast_index (tshape LPF) idx) = Some l →
     Cadd (Cscale (tgetd xs idx) l) (Cscale (tgetd ns idx) (1 - l))
     = tgetd ys idx) →
  freq_mix_3d x noise LPF = Ok y.
Proof.
  intros Hx Hn Hl Hy Hsn Hsy Hr HT HH HW Hb Hpt.
  destruct (spectrum_exists x T H W)
    as (fx & sx & Hfx & Hsx & Hsxs & Hsxwf & _); [done..|].
  destruct (spectrum_exists noise T H W)
    as (fn & sn & Hfn & Hsnn & Hsns & Hsnwf & _);
    [done|by rewrite Hsn|done..|].
  destruct (spectrum_exists y T H W)
    as (fy & sy & Hfy & Hsyy & Hsys & Hsywf & Hi1 & Hi2);
    [done|by rewrite Hsy|done..|].
  unfold freq_mix_3d.
  rewrite Hfx, bind_Ok, Hsx, bind_Ok, Hfn, bind_Ok, Hsnn, bind_Ok.
  unfold broadcast_op at 3. rewrite Hsxs, Hb, bind_Ok.
  unfold broadcast_op at 2. rewrite Hsns, Hsn. simpl tshape. rewrite Hb, bind_Ok.
  unfold broadcast_op at 1. simpl tshape. rewrite broadcast_shapes_same, bind_Ok.
  match goal with |- context [ifftshift ?m _] => assert (m = sy) as -> end.
  { etrans; [|exact (tabulate_tgetd sy Hsywf)]. rewrite Hsys, Hsy.
    apply tabulate_ext. intros idx Hidx.
    rewrite !(broadcast_index_same (tshape x)) by done.
    rewrite !tgetd_tabulate by done.
    rewrite !(broadcast_index_same (tshape x)) by done.
    assert (broadcast_index (tshape LPF) idx ∈ indices (tshape LPF)) as Hv
      by by eapply broadcast_index_valid.
    pose proof (tget_tgetd LPF _ Hl Hv) as Hget.
    rewrite (tgetd_tmap _ _ _ _ Hget).
    apply (Hpt sx sn sy); try done.
    - by exists fx.
    - by exists fn.
    - by exists fy. }
  rewrite Hi1, bind_Ok, Hi2, bind_Ok. by rewrite tmap_Re_RtoC.
Qed.

(** ** Examples *)

Example py_round_ties_to_even :
  py_round (1 / 2) = 0%Z ∧ py_round (3 / 2) = 2%Z ∧ py_round (5 / 2) = 2%Z ∧
  py_round (7 / 4) = 2%Z ∧ py_round (- (1 / 2)) = 0%Z.
Proof.
  split_and!.
  - rewrite (py_round_half _ 0); [done|lra].
  - rewrite (py_round_half _ 1); [done|lra].
  - rewrite (py_round_half _ 2); [done|lra].
  - apply (py_round_above _ 1). lra.
  - rewrite (py_round_half _ (-1)); [done|lra].
Qed.

Example slice_negative_start :
  in_slice (-1) 5 4 <$> [0; 1; 2; 3] = [false; false; false; true].
Proof. reflexivity. Qed.

Example slice_clamped :
  in_slice (-3) 5 2 <$> [0; 1] = [true; true].
Proof. reflexivity. Qed.

Example broadcast_shapes_examples :
  broadcast_shapes [2; 1; 4] [3; 1] = Some [2; 3; 4] ∧
  broadcast_shapes [1; 1; 4; 4; 4] [4; 4; 4] = Some [1; 1; 4; 4; 4] ∧
  broadcast_shapes [2; 3] [4] = None.
Proof. split_and!; reflexivity. Qed.

Example fftshift_of_range :
  fftshift (tmap RtoC (Tensor [1; 1; 5] [0; 1; 2; 3; 4]%R)) last_three_dims
  = Ok (tmap RtoC (Tensor [1; 1; 5] [3; 4; 0; 1; 2]%R)).
Proof. reflexivity. Qed.

Example ifftshift_of_range :
  ifftshift (tmap RtoC (Tensor [1; 1; 5] [3; 4; 0; 1; 2]%R)) last_three_dims
  = Ok (tmap RtoC (Tensor [1; 1; 5] [0; 1; 2; 3; 4]%R)).
Proof. reflexivity. Qed.

Example dft_kernel_quarter_turn : dft_kernel false 4 1 1 = (0, -1)%R.
Proof.
  unfold dft_kernel, cis. nR_eval.
  replace (- (2 * PI * 1 * 1 / 4))%R with (- (PI / 2))%R by field.
  by rewrite cos_neg, sin_neg, cos_PI2, sin_PI2.
Qed.

Example fftn_two_points (a b : R) :
  fftn (tmap RtoC (Tensor [1; 1; 2] [a; b])) last_three_dims
  = Ok (tmap RtoC (Tensor [1; 1; 2] [a + b; a - b]%R)).
Proof.
  cbv -[cos sin PI Rplus Rminus Rmult Rdiv Ropp Rinv IZR].
  replace (- (2 * PI * 0 * 0 / 2))%R with 0%R by field.
  replace (- (2 * PI * 1 * 0 / 2))%R with 0%R by field.
  replace (- (2 * PI * 0 * 1 / 2))%R with 0%R by field.
  replace (- (2 * PI * 0 * 0 / 1))%R with 0%R by field.
  replace (- (2 * PI * 1 * 1 / 2))%R with (- PI)%R by field.
  rewrite cos_neg, sin_neg, cos_PI, sin_PI, cos_0, sin_0.
  do 2 apply f_equal.
  repeat (apply (f_equal2 cons); [apply injective_projections; simpl; ring|]).
  done.
Qed.

Example box_full_block :
  box_low_pass_filter [2; 2; 2] 1 1 = Ok (Tensor [2; 2; 2] (replicate 8 1%R)).
Proof.
  unfold box_low_pass_filter. simpl.
  rewrite decide_False by (intros [?|?]; lra).
  rewrite box_threshold_2_one. reflexivity.
Qed.

(** * The claims *)

(** C1. For every shape with trailing dimensions T, H, W >= 1 and all
    cutoffs d_s > 0 and d_t > 0, the gaussian filter returns a mask whose
    value at every coordinate (t, h, w) is exp(-d²/(2·d_s²)), and the
    butterworth filter one whose value is 1/(1 + (d²/d_s²)^n), where d² is
    the squared distance of the specification, with the temporal axis scaled
    by d_s/d_t before squaring. *)
Theorem smooth_masks_follow_formulas (shape : list nat) (T H W : nat)
    (d_s d_t : R) (n : nat) :
  last3 shape = Some (T, H, W) →
  1 ≤ T → 1 ≤ H → 1 ≤ W → (0 < d_s)%R → (0 < d_t)%R →
  (∃ m, gaussian_low_pass_filter shape d_s d_t = Ok m ∧
        ∀ idx t h w, idx ∈ indices shape → last3 idx = Some (t, h, w) →
          tget m idx = Some (spec_gaussian d_s d_t T H W t h w)) ∧
  (∃ m, butterworth_low_pass_filter shape n d_s d_t = Ok m ∧
        ∀ idx t h w, idx ∈ indices shape → last3 idx = Some (t, h, w) →
          tget m idx = Some (spec_butterworth n d_s d_t T H W t h w)).
Proof.
  intros Hs _ _ _ Hds Hdt. split.
  - destruct (gaussian_low_pass_filter_spec shape T H W d_s d_t)
      as (m & Hm & _ & _ & Hget); [done|lra|lra|]. by exists m.
  - destruct (butterworth_low_pass_filter_spec shape T H W d_s d_t)
      with (n := n) as (m & Hm & _ & _ & Hget); [done|lra|lra|]. by exists m.
Qed.

Lemma smooth_masks_follow_formulas_witness :
  last3 [1; 1; 2; 2; 2] = Some (2, 2, 2) ∧ 1 ≤ 2 ∧ (0 < 1 / 4)%R ∧
  (∃ m, gaussian_low_pass_filter [1; 1; 2; 2; 2] (1 / 4) (1 / 4) = Ok m ∧
        ∀ idx t h w, idx ∈ indices [1; 1; 2; 2; 2] →
          last3 idx = Some (t, h, w) →
          tget m idx = Some (spec_gaussian (1 / 4) (1 / 4) 2 2 2 t h w)) ∧
  (∃ m, butterworth_low_pass_filter [1; 1; 2; 2; 2] 4 (1 / 4) (1 / 4) = Ok m ∧
        ∀ idx t h w, idx ∈ indices [1; 1; 2; 2; 2] →
          last3 idx = Some (t, h, w) →
          tget m idx = Some (spec_butterworth 4 (1 / 4) (1 / 4) 2 2 2 t h w)).
Proof.
  split; [reflexivity|]. split; [lia|]. split; [lra|].
  apply (smooth_masks_follow_formulas [1; 1; 2; 2; 2] 2 2 2 (1 / 4) (1 / 4) 4);
    [reflexivity|lia|lia|lia|lra|lra].
Defined.

(** C2. For each of the four filters and every shape with three trailing
    dimensions, a cutoff d_s = 0 or d_t = 0 gives the all-zero mask of the
    full shape: the filter returns the freshly allocated [torch.zeros(shape)]
    as it is.  The same holds through the dispatcher for every recognised
    method. *)
Theorem zero_cutoff_gives_zero_mask (shape : list nat) (T H W : nat)
    (d_s d_t : R) (n : nat) :
  last3 shape = Some (T, H, W) →
  d_s = 0%R ∨ d_t = 0%R →
  gaussian_low_pass_filter shape d_s d_t = Ok (torch_zeros shape) ∧
  ideal_low_pass_filter shape d_s d_t = Ok (torch_zeros shape) ∧
  box_low_pass_filter shape d_s d_t = Ok (torch_zeros shape) ∧
  butterworth_low_pass_filter shape n d_s d_t = Ok (torch_zeros shape) ∧
  ∀ device method, method ∈ recognized_methods →
    get_freq_filter shape device (params.Make method d_s d_t n)
      = Ok (torch_zeros shape).
Proof.
  intros Hs Hz.
  pose proof (gaussian_zero_cutoff _ _ _ _ _ _ Hs Hz) as Hg.
  pose proof (ideal_zero_cutoff _ _ _ _ _ _ Hs Hz) as Hi.
  pose proof (box_zero_cutoff _ _ _ _ _ _ Hs Hz) as Hb.
  pose proof (butterworth_zero_cutoff _ _ _ _ _ _ Hs Hz n) as Hw.
  split_and!; [done..|].
  intros device method [Hm|[Hm|[Hm|Hm]]]%recognized_methods_cases.
  - by rewrite get_freq_filter_gaussian.
  - by rewrite get_freq_filter_ideal.
  - by rewrite get_freq_filter_box.
  - by rewrite get_freq_filter_butterworth.
Qed.

Lemma zero_cutoff_gives_zero_mask_witness :
  last3 [1; 1; 4; 4; 4] = Some (4, 4, 4) ∧
  (0 = 0 ∨ 1 / 4 = 0)%R ∧
  gaussian_low_pass_filter [1; 1; 4; 4; 4] 0 (1 / 4)
    = Ok (torch_zeros [1; 1; 4; 4; 4]) ∧
  ideal_low_pass_filter [1; 1; 4; 4; 4] 0 (1 / 4)
    = Ok (torch_zeros [1; 1; 4; 4; 4]) ∧
  box_low_pass_filter [1; 1; 4; 4; 4] 0 (1 / 4)
    = Ok (torch_zeros [1; 1; 4; 4; 4]) ∧
  butterworth_low_pass_filter [1; 1; 4; 4; 4] 4 0 (1 / 4)
    = Ok (torch_zeros [1; 1; 4; 4; 4]) ∧
  ∀ device method, method ∈ recognized_methods →
    get_freq_filter [1; 1; 4; 4; 4] device (params.Make method 0 (1 / 4) 4)
      = Ok (torch_zeros [1; 1; 4; 4; 4]).
Proof.
  split; [reflexivity|]. split; [left; reflexivity|].
  apply (zero_cutoff_gives_zero_mask [1; 1; 4; 4; 4] 4 4 4 0 (1 / 4) 4);
    [reflexivity|left; reflexivity].
Defined.

(** C3. For every shape with trailing dimensions T, H, W >= 1 and all
    cutoffs d_s > 0 and d_t > 0, the ideal filter returns a mask whose every
    element is exactly 0 or exactly 1, and the value at (t, h, w) is 1
    exactly when d² <= 2·d_s. *)
Theorem ideal_mask_binary_threshold (shape : list nat) (T H W : nat)
    (d_s d_t : R) :
  last3 shape = Some (T, H, W) →
  1 ≤ T → 1 ≤ H → 1 ≤ W → (0 < d_s)%R → (0 < d_t)%R →
  ∃ m, ideal_low_pass_filter shape d_s d_t = Ok m ∧
       ∀ idx t h w, idx ∈ indices shape → last3 idx = Some (t, h, w) →
         ∃ v, tget m idx = Some v ∧
              (v = 0%R ∨ v = 1%R) ∧
              (v = 1%R ↔ (spec_d_square d_s d_t T H W t h w <= 2 * d_s)%R).
Proof.
  intros Hs _ _ _ Hds Hdt.
  destruct (ideal_low_pass_filter_spec shape T H W d_s d_t)
    as (m & Hm & _ & _ & Hget); [done|lra|lra|].
  exists m. split; [done|]. intros idx t h w Hidx Hl.
  eexists. split; [by apply Hget|].
  destruct (Rle_dec _ _) as [Hle|Hnle].
  - split; [by right|]. split; [lra|done].
  - split; [by left|]. split; [lra|]. intros Hle. lra.
Qed.

Lemma ideal_mask_binary_threshold_witness :
  last3 [1; 1; 2; 2; 2] = Some (2, 2, 2) ∧ 1 ≤ 2 ∧ (0 < 1 / 4)%R ∧
  ∃ m, ideal_low_pass_filter [1; 1; 2; 2; 2] (1 / 4) (1 / 4) = Ok m ∧
       ∀ idx t h w, idx ∈ indices [1; 1; 2; 2; 2] →
         last3 idx = Some (t, h, w) →
         ∃ v, tget m idx = Some v ∧
              (v = 0%R ∨ v = 1%R) ∧
              (v = 1%R ↔
               (spec_d_square (1 / 4) (1 / 4) 2 2 2 t h w <= 2 * (1 / 4))%R).
Proof.
  split; [reflexivity|]. split; [lia|]. split; [lra|].
  apply (ideal_mask_binary_threshold [1; 1; 2; 2; 2] 2 2 2 (1 / 4) (1 / 4));
    [reflexivity|lia|lia|lia|lra|lra].
Defined.

(** C4. The claim: for T, H, W >= 1 and d_s, d_t > 0 the box mask is 1 on
    the centred block [center - threshold, center + threshold) of each axis
    and 0 elsewhere.  The code does not do so when [center - threshold] is
    negative: Python reads a negative slice start from the end of the axis.
    For the shape (1,1,2,12,4) with d_s = 1/2 and d_t = 1 the width axis has
    centre 2 and threshold round(6·0.5) = 3, and its slice [-1:5] selects
    column 3 alone: the mask is 1 exactly where 3 <= h < 9 and w = 3.  The
    coordinate (t,h,w) = (0,3,0) lies in the block of the claim and holds
    0. *)
Theorem box_block_off_centre_on_narrow_width :
  ∃ m, box_low_pass_filter [1; 1; 2; 12; 4] (1 / 2) 1 = Ok m ∧
       (∀ idx t h w, idx ∈ indices [1; 1; 2; 12; 4] →
          last3 idx = Some (t, h, w) →
          tget m idx = Some (if bool_decide (3 ≤ h < 9 ∧ w = 3)
                             then 1%R else 0%R)) ∧
       spec_box_block 2 12 4 (1 / 2) 1 0 3 0 ∧
       tget m [0; 0; 0; 3; 0] = Some 0%R.
Proof.
  destruct (box_low_pass_filter_spec [1; 1; 2; 12; 4] 2 12 4 (1 / 2) 1)
    as (m & Hm & _ & _ & Hget); [done|lra|lra|].
  assert (∀ idx t h w, idx ∈ indices [1; 1; 2; 12; 4] →
            last3 idx = Some (t, h, w) →
            tget m idx = Some (if bool_decide (3 ≤ h < 9 ∧ w = 3)
                               then 1%R else 0%R)) as Hall.
  { intros idx t h w Hidx Hl. rewrite (Hget _ _ _ _ Hidx Hl). do 2 f_equal.
    destruct (last3_index _ _ 2 12 4 Hidx eq_refl)
      as (t' & h' & w' & Hl' & ? & ? & ?).
    rewrite Hl in Hl'. injection Hl' as <- <- <-.
    unfold box_selects. rewrite box_threshold_12_half, box_threshold_2_one.
    unfold in_slice, adjust_index. simpl.
    repeat case_bool_decide; simpl; try done; lia. }
  exists m. split; [done|]. split; [done|]. split.
  - unfold spec_box_block.
    fold (box_threshold 12 (1 / 2)). fold (box_threshold 2 1).
    rewrite box_threshold_12_half, box_threshold_2_one. simpl. lia.
  - by rewrite (Hall _ 0 3 0) by (solve_index || done).
Qed.

(** C5. For two real arrays [x] and [noise] of one shape (with trailing
    dimensions T, H, W >= 1) and a mask that broadcasts to that shape:
    mixing with an all-ones mask returns [x], and mixing with an all-zero mask
    returns [noise].  In the exact arithmetic of the model the result is
    equal to [x] (to [noise]), which is the claim's equality up to
    floating-point tolerance. *)
Theorem mix_with_constant_mask (x noise mask : tensor R) (T H W : nat) :
  wf x → wf noise → wf mask →
  tshape noise = tshape x →
  last3 (tshape x) = Some (T, H, W) → 1 ≤ T → 1 ≤ H → 1 ≤ W →
  broadcast_shapes (tshape x) (tshape mask) = Some (tshape x) →
  (Forall (λ v, v = 1%R) (tdata mask) → freq_mix_3d x noise mask = Ok x) ∧
  (Forall (λ v, v = 0%R) (tdata mask) → freq_mix_3d x noise mask = Ok noise).
Proof.
  intros Hx Hn Hm Hs Hr HT HH HW Hb. split; intros Hall.
  - apply (freq_mix_3d_select _ _ _ _ T H W); try done.
    intros xs ns ys idx l Hxs Hns Hys Hidx Hl.
    rewrite (spectrum_of_unique _ _ _ Hys Hxs).
    apply tget_elem_of in Hl. rewrite Forall_forall in Hall.
    rewrite (Hall l Hl). generalize (tgetd xs idx), (tgetd ns idx).
    intros z w. complex_eq.
  - apply (freq_mix_3d_select _ _ _ _ T H W); try done.
    intros xs ns ys idx l Hxs Hns Hys Hidx Hl.
    rewrite (spectrum_of_unique _ _ _ Hys Hns).
    apply tget_elem_of in Hl. rewrite Forall_forall in Hall.
    rewrite (Hall l Hl). generalize (tgetd xs idx), (tgetd ns idx).
    intros z w. complex_eq.
Qed.

Lemma mix_with_constant_mask_witness :
  let x := Tensor [2; 1; 1; 2] [1; 2; 3; 4]%R in
  let noise := Tensor [2; 1; 1; 2] [5; 6; 7; 8]%R in
  let ones := Tensor [1; 1; 2] [1; 1]%R in
  wf x ∧ wf noise ∧ wf ones ∧ tshape noise = tshape x ∧
  last3 (tshape x) = Some (1, 1, 2) ∧ 1 ≤ 1 ∧ 1 ≤ 2 ∧
  broadcast_shapes (tshape x) (tshape ones) = Some (tshape x) ∧
  Forall (λ v, v = 1%R) (tdata ones) ∧
  freq_mix_3d x noise ones = Ok x.
Proof.
  intros x noise ones.
  assert (Forall (λ v, v = 1%R) (tdata ones)) as Hall
    by (repeat constructor).
  split_and!; [reflexivity|reflexivity|reflexivity|reflexivity|
               reflexivity|lia|lia|reflexivity|exact Hall|].
  apply (mix_with_constant_mask x noise ones 1 1 2);
    [reflexivity|reflexivity|reflexivity|reflexivity|reflexivity|lia|lia|lia|
     reflexivity|exact Hall].
Defined.

(** C6. For a real array [x] (with trailing dimensions T, H, W >= 1) and
    any mask that broadcasts to its shape, mixing [x] with
    itself returns [x]: the low and the high frequencies taken with the
    complementary weights [mask] and [1 - mask] add up to the spectrum of
    [x].  The equality is exact in the arithmetic of the model. *)
Theorem mix_with_itself (x mask : tensor R) (T H W : nat) :
  wf x → wf mask →
  last3 (tshape x) = Some (T, H, W) → 1 ≤ T → 1 ≤ H → 1 ≤ W →
  broadcast_shapes (tshape x) (tshape mask) = Some (tshape x) →
  freq_mix_3d x x mask = Ok x.
Proof.
  intros Hx Hm Hr HT HH HW Hb.
  apply (freq_mix_3d_select _ _ _ _ T H W); try done.
  intros xs ns ys idx l Hxs Hns Hys Hidx Hl.
  rewrite (spectrum_of_unique _ _ _ Hys Hxs), (spectrum_of_unique _ _ _ Hns Hxs).
  generalize (tgetd xs idx). intros z. complex_eq.
Qed.

Lemma mix_with_itself_witness :
  let x := Tensor [2; 1; 1; 2] [1; 2; 3; 4]%R in
  let mask := Tensor [1; 1; 2] [1 / 4; 3]%R in
  wf x ∧ wf mask ∧ last3 (tshape x) = Some (1, 1, 2) ∧ 1 ≤ 1 ∧ 1 ≤ 2 ∧
  broadcast_shapes (tshape x) (tshape mask) = Some (tshape x) ∧
  freq_mix_3d x x mask = Ok x.
Proof.
  intros x mask.
  split_and!; [reflexivity|reflexivity|reflexivity|lia|lia|reflexivity|].
  apply (mix_with_itself x mask 1 1 2);
    [reflexivity|reflexivity|reflexivity|lia|lia|lia|reflexivity].
Defined.

(** C7. For every params whose method is none of gaussian, ideal, box and
    butterworth, [get_freq_filter] raises [NotImplementedError], whatever
    the shape (nothing else is computed first); for each of the four names it
    is the corresponding filter applied to the parameters, and it returns a
    mask without error on every shape of at least three dimensions. *)
Theorem get_freq_filter_dispatches (shape : list nat) (device : string)
    (p : params.t) :
  (params.method p ∉ recognized_methods →
   get_freq_filter shape device p = Raise NotImplementedError) ∧
  (params.method p = "gaussian" →
   get_freq_filter shape device p =
     gaussian_low_pass_filter shape (params.d_s p) (params.d_t p)) ∧
  (params.method p = "ideal" →
   get_freq_filter shape device p =
     ideal_low_pass_filter shape (params.d_s p) (params.d_t p)) ∧
  (params.method p = "box" →
   get_freq_filter shape device p =
     box_low_pass_filter shape (params.d_s p) (params.d_t p)) ∧
  (params.method p = "butterworth" →
   get_freq_filter shape device p =
     butterworth_low_pass_filter shape (params.n p) (params.d_s p)
       (params.d_t p)) ∧
  (params.method p ∈ recognized_methods → is_Some (last3 shape) →
   ∃ m, get_freq_filter shape device p = Ok m).
Proof.
  split_and!.
  - apply get_freq_filter_unrecognized.
  - apply get_freq_filter_gaussian.
  - apply get_freq_filter_ideal.
  - apply get_freq_filter_box.
  - apply get_freq_filter_butterworth.
  - intros Hm [[[T H] W] Hs].
    destruct (get_freq_filter_returns_shape shape T H W device p Hs Hm)
      as (m & Hr & _). by exists m.
Qed.

Lemma get_freq_filter_dispatches_witness :
  get_freq_filter [1; 1; 4; 4; 4] "cpu" (params.Make "median" (1 / 4) (1 / 4) 4)
    = Raise NotImplementedError ∧
  get_freq_filter [4; 4] "cpu" (params.Make "median" (1 / 4) (1 / 4) 4)
    = Raise NotImplementedError ∧
  ∃ m, get_freq_filter [1; 1; 4; 4; 4] "cpu"
         (params.Make "butterworth" (1 / 4) (1 / 4) 4) = Ok m.
Proof.
  split_and!.
  - apply (get_freq_filter_dispatches [1; 1; 4; 4; 4] "cpu"
             (params.Make "median" (1 / 4) (1 / 4) 4)).
    unfold recognized_methods. simpl. rewrite !elem_of_cons, elem_of_nil.
    intros [?|[?|[?|[?|[]]]]]; discriminate.
  - apply (get_freq_filter_dispatches [4; 4] "cpu"
             (params.Make "median" (1 / 4) (1 / 4) 4)).
    unfold recognized_methods. simpl. rewrite !elem_of_cons, elem_of_nil.
    intros [?|[?|[?|[?|[]]]]]; discriminate.
  - apply (get_freq_filter_dispatches [1; 1; 4; 4; 4] "cpu"
             (params.Make "butterworth" (1 / 4) (1 / 4) 4)).
    + unfold recognized_methods. simpl. rewrite !elem_of_cons. tauto.
    + by eexists.
Defined.

(** C8, as stated, fails: for the shape (1,1,4,4,4) and the gaussian method
    the returned mask has the full shape (1,1,4,4,4), not (4,4,4). *)
Lemma mask_shape_not_trailing :
  ∃ m, get_freq_filter [1; 1; 4; 4; 4] "cpu"
         (params.Make "gaussian" (1 / 4) (1 / 4) 4) = Ok m ∧
       tshape m = [1; 1; 4; 4; 4] ∧ tshape m ≠ [4; 4; 4].
Proof.
  destruct (get_freq_filter_returns_shape [1; 1; 4; 4; 4] 4 4 4 "cpu"
              (params.Make "gaussian" (1 / 4) (1 / 4) 4))
    as (m & Hm & Hs & _); [done| |].
  { apply recognized_methods_cases. by left. }
  exists m. split; [done|]. split; [done|]. by rewrite Hs.
Qed.

(** C8 (amended). For every 5-tuple input shape (B,C,T,H,W) and every
    recognised method, the mask returned by [get_freq_filter] has the full
    shape (B,C,T,H,W) of the input, as allocated by [torch.zeros(shape)]. *)
Theorem mask_has_input_shape (B C T H W : nat) (device : string)
    (p : params.t) :
  params.method p ∈ recognized_methods →
  ∃ m, get_freq_filter [B; C; T; H; W] device p = Ok m ∧
       tshape m = [B; C; T; H; W].
Proof.
  intros Hm.
  destruct (get_freq_filter_returns_shape [B; C; T; H; W] T H W device p)
    as (m & Hr & Hs & _); [done|done|]. by exists m.
Qed.

Lemma mask_has_input_shape_witness :
  "box" ∈ recognized_methods ∧
  ∃ m, get_freq_filter [1; 1; 4; 4; 4] "cpu"
         (params.Make "box" (1 / 4) (1 / 4) 4) = Ok m ∧
       tshape m = [1; 1; 4; 4; 4].
Proof.
  assert ("box" ∈ recognized_methods) as Hm.
  { unfold recognized_methods. rewrite !elem_of_cons. tauto. }
  split; [exact Hm|].
  exact (mask_has_input_shape 1 1 4 4 4 "cpu"
           (params.Make "box" (1 / 4) (1 / 4) 4) Hm).
Defined.

(** C9, as stated, fails: for the shape (1,1,4,4,4) with d_s = d_t = 0.25
    the half-thresholds are not 1, and the mask is not 1 on the block
    [1,3) x [1,3) x [1,3): it holds 0 at (1,1,1). *)
Lemma box_example_thresholds_not_one :
  box_threshold 4 (1 / 4) ≠ 1%Z ∧
  ¬ ∃ m, box_low_pass_filter [1; 1; 4; 4; 4] (1 / 4) (1 / 4) = Ok m ∧
         ∀ idx t h w, idx ∈ indices [1; 1; 4; 4; 4] →
           last3 idx = Some (t, h, w) →
           tget m idx =
             Some (if decide (1 ≤ t < 3 ∧ 1 ≤ h < 3 ∧ 1 ≤ w < 3)
                   then 1%R else 0%R).
Proof.
  split.
  - by rewrite box_threshold_4_quarter.
  - intros (m & Hm & Hget).
    rewrite (box_zero_threshold _ 4 4 4) in Hm
      by (done || left; apply box_threshold_4_quarter).
    injection Hm as <-.
    specialize (Hget [0; 0; 1; 1; 1] 1 1 1).
    rewrite tget_zeros in Hget by solve_index.
    rewrite decide_True in Hget by lia.
    assert (0 = 1)%R by (apply (inj Some), Hget; [solve_index|done]). lra.
Qed.

(** C9 (amended). For the shape (1,1,4,4,4) with d_s = 0.25, d_t = 0.25 and
    the box method, the half-thresholds are round(2·0.25) = round(0.5) = 0
    (Python rounds a tie to the even integer), and the returned mask is zero
    everywhere. *)
Theorem box_example_is_zero :
  box_threshold 4 (1 / 4) = 0%Z ∧
  box_low_pass_filter [1; 1; 4; 4; 4] (1 / 4) (1 / 4)
    = Ok (torch_zeros [1; 1; 4; 4; 4]) ∧
  get_freq_filter [1; 1; 4; 4; 4] "cpu" (params.Make "box" (1 / 4) (1 / 4) 4)
    = Ok (torch_zeros [1; 1; 4; 4; 4]).
Proof.
  assert (box_low_pass_filter [1; 1; 4; 4; 4] (1 / 4) (1 / 4)
          = Ok (torch_zeros [1; 1; 4; 4; 4])) as Hb.
  { apply (box_zero_threshold _ 4 4 4); [done|].
    left. apply box_threshold_4_quarter. }
  split; [apply box_threshold_4_quarter|]. split; [done|].
  by rewrite get_freq_filter_box.
Qed.

(** C10. Whenever round((T//2)·d_t) = 0 or round((H//2)·d_s) = 0 the block
    selected by the box filter is empty and the mask is zero everywhere, so
    in particular not 1 at the centre; this happens for positive cutoffs:
    T = H = 4 with d_s = d_t = 0.25 gives round(0.5) = 0. *)
Theorem box_zero_threshold_gives_zero_mask :
  (∀ shape T H W d_s d_t,
     last3 shape = Some (T, H, W) →
     box_threshold T d_t = 0%Z ∨ box_threshold H d_s = 0%Z →
     box_low_pass_filter shape d_s d_t = Ok (torch_zeros shape)) ∧
  (∃ shape T H W d_s d_t,
     last3 shape = Some (T, H, W) ∧ 1 ≤ T ∧ 1 ≤ H ∧ 1 ≤ W ∧
     (0 < d_s)%R ∧ (0 < d_t)%R ∧
     py_round (nR (T / 2) * d_t) = 0%Z ∧ py_round (nR (H / 2) * d_s) = 0%Z ∧
     box_low_pass_filter shape d_s d_t = Ok (torch_zeros shape) ∧
     tget (torch_zeros shape) [0; 0; T / 2; H / 2; W / 2] = Some 0%R).
Proof.
  split; [apply box_zero_threshold|].
  exists [1; 1; 4; 4; 4], 4, 4, 4, (1 / 4)%R, (1 / 4)%R.
  pose proof box_threshold_4_quarter as Hth. unfold box_threshold in Hth.
  split_and!; [done|lia|lia|lia|lra|lra|done|done| |].
  - apply (box_zero_threshold _ 4 4 4); [done|].
    left. apply box_threshold_4_quarter.
  - apply tget_zeros. solve_index.
Qed.

Lemma box_zero_threshold_gives_zero_mask_witness :
  last3 [1; 1; 4; 4; 4] = Some (4, 4, 4) ∧
  (box_threshold 4 (1 / 4) = 0%Z ∨ box_threshold 4 (1 / 4) = 0%Z) ∧
  box_low_pass_filter [1; 1; 4; 4; 4] (1 / 4) (1 / 4)
    = Ok (torch_zeros [1; 1; 4; 4; 4]).
Proof.
  assert (box_threshold 4 (1 / 4) = 0%Z ∨ box_threshold 4 (1 / 4) = 0%Z) as Hth.
  { left. apply box_threshold_4_quarter. }
  split; [reflexivity|]. split; [exact Hth|].
  exact (proj1 box_zero_threshold_gives_zero_mask
           [1; 1; 4; 4; 4] 4 4 4 (1 / 4)%R (1 / 4)%R eq_refl Hth).
Defined.

(** * Further properties of the filters *)

(** ** Auxiliary facts *)

Lemma last3_None (l : list nat) : length l < 3 → last3 l = None.
Proof.
  intros Hl. destruct (last3 l) as [[[a b] c]|] eqn:Hl3; [|done].
  apply last3_length in Hl3. lia.
Qed.

Lemma trailing_dims_short (s : list nat) :
  length s < 3 → trailing_dims s = Raise IndexError.
Proof. intros Hs. unfold trailing_dims. by rewrite last3_None. Qed.

(** Every element of a well-formed tensor is read at some index. *)
Lemma Forall_tdata {A} (P : A → Prop) (m : tensor A) :
  wf m →
  (∀ idx v, idx ∈ indices (tshape m) → tget m idx = Some v → P v) →
  Forall P (tdata m).
Proof.
  intros Hwf HP. apply Forall_lookup_2. intros i v Hi.
  pose proof (lookup_lt_Some _ _ _ Hi) as Hlt.
  rewrite Hwf, <-length_indices in Hlt.
  destruct (lookup_lt_is_Some_2 _ _ Hlt) as [idx Hidx].
  apply (HP idx); [by eapply list_elem_of_lookup_2|].
  unfold tget. by rewrite (indices_ravel _ _ _ Hidx).
Qed.

Lemma exp_nonpos_le_1 (x : R) : (x <= 0)%R → (exp x <= 1)%R.
Proof.
  intros [Hx| ->]; [|rewrite exp_0; lra].
  apply exp_increasing in Hx. rewrite exp_0 in Hx. lra.
Qed.

Lemma exp_le_mono (x y : R) : (x <= y)%R → (exp x <= exp y)%R.
Proof. intros [Hx| ->]; [|lra]. left. by apply exp_increasing. Qed.

Lemma spec_gaussian_range (d_s d_t : R) (T H W t h w : nat) :
  d_s ≠ 0%R → (0 < spec_gaussian d_s d_t T H W t h w <= 1)%R.
Proof.
  intros Hds. unfold spec_gaussian. split; [apply exp_pos|].
  apply exp_nonpos_le_1.
  pose proof (spec_d_square_nonneg d_s d_t T H W t h w) as Hd.
  assert (0 < 2 * d_s ^ 2)%R by nra.
  unfold Rdiv. assert (0 < / (2 * d_s ^ 2))%R by by apply Rinv_0_lt_compat.
  nra.
Qed.

Lemma butterworth_ratio_nonneg (d_s d_t : R) (T H W t h w : nat) :
  d_s ≠ 0%R → (0 <= spec_d_square d_s d_t T H W t h w / d_s ^ 2)%R.
Proof.
  intros Hds. pose proof (spec_d_square_nonneg d_s d_t T H W t h w) as Hd.
  assert (0 < d_s ^ 2)%R by nra.
  apply Rmult_le_pos; [done|]. left. by apply Rinv_0_lt_compat.
Qed.

Lemma spec_butterworth_range (n : nat) (d_s d_t : R) (T H W t h w : nat) :
  d_s ≠ 0%R → (0 < spec_butterworth n d_s d_t T H W t h w <= 1)%R.
Proof.
  intros Hds. unfold spec_butterworth.
  pose proof (pow_le _ n (butterworth_ratio_nonneg d_s d_t T H W t h w Hds))
    as Hq.
  set (q := ((spec_d_square d_s d_t T H W t h w / d_s ^ 2) ^ n)%R) in *.
  split.
  - apply Rdiv_lt_0_compat; lra.
  - apply (Rmult_le_reg_r (1 + q)); [lra|].
    unfold Rdiv. rewrite Rmult_assoc, Rinv_l by lra. lra.
Qed.

(** Each recognised method fills the mask with a function of the trailing
    coordinates whose values lie in [0, 1]. *)
Lemma get_freq_filter_pointwise shape T H W device (p : params.t) :
  last3 shape = Some (T, H, W) →
  params.method p ∈ recognized_methods →
  ∃ m f, get_freq_filter shape device p = Ok m ∧ tshape m = shape ∧ wf m ∧
         (∀ t h w, (0 <= f t h w <= 1)%R) ∧
         ∀ idx t h w, idx ∈ indices shape → last3 idx = Some (t, h, w) →
           tget m idx = Some (f t h w).
Proof.
  intros Hs Hm.
  destruct (decide (params.d_s p = 0%R ∨ params.d_t p = 0%R)) as [Hz|Hz].
  { exists (torch_zeros shape), (λ _ _ _, 0%R). split_and!.
    - apply recognized_methods_cases in Hm as [Hm|[Hm|[Hm|Hm]]].
      + rewrite get_freq_filter_gaussian by done. by eapply gaussian_zero_cutoff.
      + rewrite get_freq_filter_ideal by done. by eapply ideal_zero_cutoff.
      + rewrite get_freq_filter_box by done. by eapply box_zero_cutoff.
      + rewrite get_freq_filter_butterworth by done.
        by eapply butterworth_zero_cutoff.
    - done.
    - apply wf_zeros.
    - intros; lra.
    - intros idx t h w Hidx _. by apply tget_zeros. }
  assert (params.d_s p ≠ 0%R) as Hds by tauto.
  assert (params.d_t p ≠ 0%R) as Hdt by tauto.
  apply recognized_methods_cases in Hm as [Hm|[Hm|[Hm|Hm]]].
  - rewrite get_freq_filter_gaussian by done.
    destruct (gaussian_low_pass_filter_spec shape T H W _ _ Hs Hds Hdt)
      as (m & Hr & Hsh & Hwf & Hget).
    exists m, (spec_gaussian (params.d_s p) (params.d_t p) T H W).
    split_and!; try done. intros t h w.
    pose proof (spec_gaussian_range (params.d_s p) (params.d_t p) T H W t h w
                  Hds). lra.
  - rewrite get_freq_filter_ideal by done.
    destruct (ideal_low_pass_filter_spec shape T H W _ _ Hs Hds Hdt)
      as (m & Hr & Hsh & Hwf & Hget).
    eexists m, _. split_and!; [done..| |exact Hget].
    intros t h w. simpl. destruct (Rle_dec _ _); lra.
  - rewrite get_freq_filter_box by done.
    destruct (box_low_pass_filter_spec shape T H W _ _ Hs Hds Hdt)
      as (m & Hr & Hsh & Hwf & Hget).
    eexists m, _. split_and!; [done..| |exact Hget].
    intros t h w. simpl. destruct (box_selects _ _ _ _ _ _ _ _); lra.
  - rewrite get_freq_filter_butterworth by done.
    destruct (butterworth_low_pass_filter_spec shape T H W _ _ Hs Hds Hdt
                (params.n p)) as (m & Hr & Hsh & Hwf & Hget).
    exists m, (spec_butterworth (params.n p) (params.d_s p) (params.d_t p)
                 T H W).
    split_and!; try done. intros t h w.
    pose proof (spec_butterworth_range (params.n p) (params.d_s p)
                  (params.d_t p) T H W t h w Hds). lra.
Qed.

Lemma get_freq_filter_Ok_inv shape device (p : params.t) (m : tensor R) :
  get_freq_filter shape device p = Ok m →
  params.method p ∈ recognized_methods ∧ is_Some (last3 shape).
Proof.
  intros Hm.
  destruct (decide (params.method p ∈ recognized_methods)) as [Hr|Hr].
  2:{ by rewrite get_freq_filter_unrecognized in Hm. }
  split; [done|].
  destruct (last3 shape) as [thw|] eqn:Hl; [by eexists|].
  assert (trailing_dims shape = Raise IndexError) as Ht
    by (unfold trailing_dims; by rewrite Hl).
  apply recognized_methods_cases in Hr as [Hr|[Hr|[Hr|Hr]]].
  - rewrite get_freq_filter_gaussian in Hm by done.
    unfold gaussian_low_pass_filter in Hm. by rewrite Ht in Hm.
  - rewrite get_freq_filter_ideal in Hm by done.
    unfold ideal_low_pass_filter in Hm. by rewrite Ht in Hm.
  - rewrite get_freq_filter_box in Hm by done.
    unfold box_low_pass_filter in Hm. by rewrite Ht in Hm.
  - rewrite get_freq_filter_butterworth in Hm by done.
    unfold butterworth_low_pass_filter in Hm. by rewrite Ht in Hm.
Qed.

(** ** Shapes the filters refuse *)

(** X1. A shape with fewer than three dimensions makes each of the four
    filters raise [IndexError], whatever the cutoffs: the trailing dimensions
    are read before the test for a zero cutoff, so even d_s = 0 does not give
    the zero mask.  The dispatcher passes the error on for every recognised
    method. *)
Theorem filters_need_three_dimensions (shape : list nat) (d_s d_t : R)
    (n : nat) :
  length shape < 3 →
  gaussian_low_pass_filter shape d_s d_t = Raise IndexError ∧
  butterworth_low_pass_filter shape n d_s d_t = Raise IndexError ∧
  ideal_low_pass_filter shape d_s d_t = Raise IndexError ∧
  box_low_pass_filter shape d_s d_t = Raise IndexError ∧
  ∀ device method, method ∈ recognized_methods →
    get_freq_filter shape device (params.Make method d_s d_t n)
    = Raise IndexError.
Proof.
  intros Hs. pose proof (trailing_dims_short _ Hs) as Ht.
  assert (gaussian_low_pass_filter shape d_s d_t = Raise IndexError) as Hg
    by (unfold gaussian_low_pass_filter; by rewrite Ht).
  assert (butterworth_low_pass_filter shape n d_s d_t = Raise IndexError)
    as Hb by (unfold butterworth_low_pass_filter; by rewrite Ht).
  assert (ideal_low_pass_filter shape d_s d_t = Raise IndexError) as Hi
    by (unfold ideal_low_pass_filter; by rewrite Ht).
  assert (box_low_pass_filter shape d_s d_t = Raise IndexError) as Hx
    by (unfold box_low_pass_filter; by rewrite Ht).
  split_and!; [done..|].
  intros device method [Hm|[Hm|[Hm|Hm]]]%recognized_methods_cases.
  - by rewrite get_freq_filter_gaussian.
  - by rewrite get_freq_filter_ideal.
  - by rewrite get_freq_filter_box.
  - by rewrite get_freq_filter_butterworth.
Qed.

Lemma filters_need_three_dimensions_witness :
  length [4; 4] < 3 ∧
  gaussian_low_pass_filter [4; 4] 0 (1 / 4) = Raise IndexError ∧
  butterworth_low_pass_filter [4; 4] 4 0 (1 / 4) = Raise IndexError ∧
  ideal_low_pass_filter [4; 4] 0 (1 / 4) = Raise IndexError ∧
  box_low_pass_filter [4; 4] 0 (1 / 4) = Raise IndexError ∧
  ∀ device method, method ∈ recognized_methods →
    get_freq_filter [4; 4] device (params.Make method 0 (1 / 4) 4)
    = Raise IndexError.
Proof.
  split; [simpl; lia|].
  apply (filters_need_three_dimensions [4; 4] 0 (1 / 4) 4). simpl. lia.
Defined.

(** ** The values of the masks *)

(** X2. Every element of a mask returned by [get_freq_filter] lies between 0
    and 1, for every method, shape and cutoffs (also negative ones). *)
Theorem mask_values_in_unit_interval (shape : list nat) (device : string)
    (p : params.t) (m : tensor R) :
  get_freq_filter shape device p = Ok m →
  Forall (λ v, 0 <= v <= 1)%R (tdata m).
Proof.
  intros Hm. destruct (get_freq_filter_Ok_inv _ _ _ _ Hm) as [Hr [[[T H] W] Hs]].
  destruct (get_freq_filter_pointwise shape T H W device p Hs Hr)
    as (m' & f & Hm' & Hsh & Hwf & Hf & Hget).
  rewrite Hm in Hm'. injection Hm' as <-.
  apply Forall_tdata; [done|]. rewrite Hsh. intros idx v Hidx Hv.
  destruct (last3_index _ _ _ _ _ Hidx Hs) as (t & h & w & Hl & _).
  rewrite (Hget _ _ _ _ Hidx Hl) in Hv. injection Hv as <-. apply Hf.
Qed.

Lemma mask_values_in_unit_interval_witness :
  ∃ m, get_freq_filter [1; 1; 4; 4; 4] "cpu"
         (params.Make "gaussian" (1 / 4) (1 / 4) 4) = Ok m ∧
       Forall (λ v, 0 <= v <= 1)%R (tdata m).
Proof.
  destruct (get_freq_filter_returns_shape [1; 1; 4; 4; 4] 4 4 4 "cpu"
              (params.Make "gaussian" (1 / 4) (1 / 4) 4))
    as (m & Hm & _); [reflexivity|by apply recognized_methods_cases; left|].
  exists m. split; [exact Hm|].
  exact (mask_values_in_unit_interval _ _ _ _ Hm).
Defined.



(** X4. A mask does not depend on the leading (batch and channel)
    coordinates: two elements with the same trailing coordinates (t, h, w)
    are equal, for every method. *)
Theorem mask_constant_over_leading_dims (shape : list nat) (device : string)
    (p : params.t) (m : tensor R) (idx idx' : list nat) :
  get_freq_filter shape device p = Ok m →
  idx ∈ indices shape → idx' ∈ indices shape →
  last3 idx = last3 idx' →
  tget m idx = tget m idx'.
Proof.
  intros Hm Hidx Hidx' Hl.
  destruct (get_freq_filter_Ok_inv _ _ _ _ Hm) as [Hr [[[T H] W] Hs]].
  destruct (get_freq_filter_pointwise shape T H W device p Hs Hr)
    as (m' & f & Hm' & Hsh & Hwf & Hf & Hget).
  rewrite Hm in Hm'. injection Hm' as <-.
  destruct (last3_index _ _ _ _ _ Hidx Hs) as (t & h & w & Hl1 & _).
  rewrite (Hget _ _ _ _ Hidx Hl1), (Hget idx' t h w); [done..|].
  by rewrite <-Hl.
Qed.

Lemma mask_constant_over_leading_dims_witness :
  ∃ m, get_freq_filter [2; 1; 4; 4; 4] "cpu"
         (params.Make "gaussian" (1 / 4) (1 / 4) 4) = Ok m ∧
       [0; 0; 1; 2; 3] ∈ indices [2; 1; 4; 4; 4] ∧
       [1; 0; 1; 2; 3] ∈ indices [2; 1; 4; 4; 4] ∧
       last3 [0; 0; 1; 2; 3] = last3 [1; 0; 1; 2; 3] ∧
       tget m [0; 0; 1; 2; 3] = tget m [1; 0; 1; 2; 3].
Proof.
  destruct (get_freq_filter_returns_shape [2; 1; 4; 4; 4] 4 4 4 "cpu"
              (params.Make "gaussian" (1 / 4) (1 / 4) 4))
    as (m & Hm & _); [reflexivity|by apply recognized_methods_cases; left|].
  assert ([0; 0; 1; 2; 3] ∈ indices [2; 1; 4; 4; 4]) as H1 by solve_index.
  assert ([1; 0; 1; 2; 3] ∈ indices [2; 1; 4; 4; 4]) as H2 by solve_index.
  exists m. split_and!; [exact Hm|exact H1|exact H2|reflexivity|].
  exact (mask_constant_over_leading_dims _ _ _ _ _ _ Hm H1 H2 eq_refl).
Defined.

(** ** The three filters that depend on the distance only *)

Lemma squared_distance_inv (d_s d_t : R) (T H W t h w : nat) (d : R) :
  squared_distance d_s d_t T H W t h w = Ok d →
  d = spec_d_square d_s d_t T H W t h w.
Proof.
  unfold squared_distance, py_div.
  destruct (decide (d_t = 0%R)); [done|].
  destruct (decide (nR T = 0%R)); [done|].
  destruct (decide (nR H = 0%R)); [done|].
  destruct (decide (nR W = 0%R)); [done|].
  rewrite !bind_Ok. by intros [= <-].
Qed.

(** The gaussian, the ideal and the butterworth mask are a non-increasing
    function of the squared distance. *)
Lemma get_freq_filter_radial shape T H W device (p : params.t) :
  last3 shape = Some (T, H, W) →
  params.method p ∈ ["gaussian"; "ideal"; "butterworth"] →
  ∃ m g, get_freq_filter shape device p = Ok m ∧
         (∀ a b, (0 <= a <= b)%R → (g b <= g a)%R) ∧
         ∀ idx t h w, idx ∈ indices shape → last3 idx = Some (t, h, w) →
           tget m idx
           = Some (g (spec_d_square (params.d_s p) (params.d_t p) T H W t h w)).
Proof.
  intros Hs Hm. rewrite !elem_of_cons, elem_of_nil in Hm.
  destruct (decide (params.d_s p = 0%R ∨ params.d_t p = 0%R)) as [Hz|Hz].
  { exists (torch_zeros shape), (λ _, 0%R). split_and!.
    - destruct Hm as [Hm|[Hm|[Hm|[]]]].
      + rewrite get_freq_filter_gaussian by done. by eapply gaussian_zero_cutoff.
      + rewrite get_freq_filter_ideal by done. by eapply ideal_zero_cutoff.
      + rewrite get_freq_filter_butterworth by done.
        by eapply butterworth_zero_cutoff.
    - intros; lra.
    - intros idx t h w Hidx _. by apply tget_zeros. }
  assert (params.d_s p ≠ 0%R) as Hds by tauto.
  assert (params.d_t p ≠ 0%R) as Hdt by tauto.
  assert (0 < params.d_s p ^ 2)%R as Hsq by nra.
  assert (0 < / (params.d_s p ^ 2))%R as Hinv by by apply Rinv_0_lt_compat.
  destruct Hm as [Hm|[Hm|[Hm|[]]]].
  - rewrite get_freq_filter_gaussian by done.
    destruct (gaussian_low_pass_filter_spec shape T H W _ _ Hs Hds Hdt)
      as (m & Hr & _ & _ & Hget).
    exists m, (λ d, exp (- d / (2 * params.d_s p ^ 2))).
    split_and!; [done| |exact Hget].
    intros a b Hab. apply exp_le_mono. unfold Rdiv.
    assert (0 < / (2 * params.d_s p ^ 2))%R
      by (apply Rinv_0_lt_compat; lra).
    nra.
  - rewrite get_freq_filter_ideal by done.
    destruct (ideal_low_pass_filter_spec shape T H W _ _ Hs Hds Hdt)
      as (m & Hr & _ & _ & Hget).
    exists m, (λ d, if Rle_dec d (params.d_s p * 2) then 1%R else 0%R).
    split_and!; [done| |exact Hget].
    intros a b Hab. repeat destruct (Rle_dec _ _); lra.
  - rewrite get_freq_filter_butterworth by done.
    destruct (butterworth_low_pass_filter_spec shape T H W _ _ Hs Hds Hdt
                (params.n p)) as (m & Hr & _ & _ & Hget).
    exists m, (λ d, 1 / (1 + (d / params.d_s p ^ 2) ^ params.n p))%R.
    split_and!; [done| |exact Hget].
    intros a b Hab.
    assert (0 <= a / params.d_s p ^ 2 <= b / params.d_s p ^ 2)%R as Hq
      by (unfold Rdiv; nra).
    pose proof (pow_incr _ _ (params.n p) Hq) as Hpow.
    assert (0 <= (a / params.d_s p ^ 2) ^ params.n p)%R
      by (apply pow_le; lra).
    unfold Rdiv at 1 3. rewrite !Rmult_1_l.
    apply Rinv_le_contravar; lra.
Qed.

(** X5. The gaussian, ideal and butterworth filters are low-pass: of two
    frequency coordinates, the one whose squared distance (as the loop body
    computes it) is larger never has the larger mask value. *)
Theorem looping_masks_decrease_with_distance (shape : list nat) (T H W : nat)
    (device : string) (p : params.t) (m : tensor R)
    (idx1 idx2 : list nat) (t1 h1 w1 t2 h2 w2 : nat) (d1 d2 v1 v2 : R) :
  params.method p ∈ ["gaussian"; "ideal"; "butterworth"] →
  last3 shape = Some (T, H, W) →
  get_freq_filter shape device p = Ok m →
  idx1 ∈ indices shape → last3 idx1 = Some (t1, h1, w1) →
  idx2 ∈ indices shape → last3 idx2 = Some (t2, h2, w2) →
  squared_distance (params.d_s p) (params.d_t p) T H W t1 h1 w1 = Ok d1 →
  squared_distance (params.d_s p) (params.d_t p) T H W t2 h2 w2 = Ok d2 →
  (d1 <= d2)%R →
  tget m idx1 = Some v1 → tget m idx2 = Some v2 →
  (v2 <= v1)%R.
Proof.
  intros Hp Hs Hm Hi1 Hl1 Hi2 Hl2 Hd1%squared_distance_inv
    Hd2%squared_distance_inv Hle Hv1 Hv2.
  destruct (get_freq_filter_radial shape T H W device p Hs Hp)
    as (m' & g & Hm' & Hg & Hget).
  rewrite Hm in Hm'. injection Hm' as <-.
  rewrite (Hget _ _ _ _ Hi1 Hl1) in Hv1. rewrite (Hget _ _ _ _ Hi2 Hl2) in Hv2.
  injection Hv1 as <-. injection Hv2 as <-. apply Hg. subst d1 d2.
  split; [apply spec_d_square_nonneg|done].
Qed.

Lemma looping_masks_decrease_with_distance_witness :
  ∃ m v1 v2,
    "gaussian" ∈ ["gaussian"; "ideal"; "butterworth"] ∧
    last3 [1; 1; 2; 2; 2] = Some (2, 2, 2) ∧
    get_freq_filter [1; 1; 2; 2; 2] "cpu"
      (params.Make "gaussian" (1 / 4) (1 / 4) 4) = Ok m ∧
    [0; 0; 1; 1; 1] ∈ indices [1; 1; 2; 2; 2] ∧
    [0; 0; 0; 0; 0] ∈ indices [1; 1; 2; 2; 2] ∧
    squared_distance (1 / 4) (1 / 4) 2 2 2 1 1 1 = Ok 0%R ∧
    squared_distance (1 / 4) (1 / 4) 2 2 2 0 0 0 = Ok 3%R ∧
    (0 <= 3)%R ∧
    tget m [0; 0; 1; 1; 1] = Some v1 ∧ tget m [0; 0; 0; 0; 0] = Some v2 ∧
    (v2 <= v1)%R.
Proof.
  set (p := params.Make "gaussian" (1 / 4) (1 / 4) 4).
  assert ((1 / 4)%R ≠ 0%R) as Hq by lra.
  destruct (gaussian_low_pass_filter_spec [1; 1; 2; 2; 2] 2 2 2 (1 / 4) (1 / 4)
              eq_refl Hq Hq) as (m & Hm & _ & _ & Hget).
  assert (get_freq_filter [1; 1; 2; 2; 2] "cpu" p = Ok m) as Hm'
    by by rewrite get_freq_filter_gaussian.
  assert ("gaussian" ∈ ["gaussian"; "ideal"; "butterworth"]) as Hp
    by (rewrite !elem_of_cons; tauto).
  assert ([0; 0; 1; 1; 1] ∈ indices [1; 1; 2; 2; 2]) as H1 by solve_index.
  assert ([0; 0; 0; 0; 0] ∈ indices [1; 1; 2; 2; 2]) as H2 by solve_index.
  assert (squared_distance (1 / 4) (1 / 4) 2 2 2 1 1 1 = Ok 0%R) as Hd1.
  { rewrite squared_distance_Ok by (done || lia). f_equal.
    unfold spec_d_square. nR_eval. field. }
  assert (squared_distance (1 / 4) (1 / 4) 2 2 2 0 0 0 = Ok 3%R) as Hd2.
  { rewrite squared_distance_Ok by (done || lia). f_equal.
    unfold spec_d_square. nR_eval. field. }
  assert (0 <= 3)%R as Hle by lra.
  pose proof (Hget _ 1 1 1 H1 eq_refl) as Hv1.
  pose proof (Hget _ 0 0 0 H2 eq_refl) as Hv2.
  eexists m, _, _.
  split_and!; [exact Hp|reflexivity|exact Hm'|exact H1|exact H2|exact Hd1|
               exact Hd2|exact Hle|exact Hv1|exact Hv2|].
  exact (looping_masks_decrease_with_distance [1; 1; 2; 2; 2] 2 2 2 "cpu" p m
           _ _ 1 1 1 0 0 0 _ _ _ _ Hp eq_refl Hm' H1 eq_refl H2 eq_refl
           Hd1 Hd2 Hle Hv1 Hv2).
Defined.

Lemma nR_add (a b : nat) : nR (a + b) = (nR a + nR b)%R.
Proof. unfold nR. by rewrite Nat2Z.inj_add, plus_IZR. Qed.


(** The centred coordinate changes sign under [t ↦ T - t]. *)
Lemma centred_coordinate_mirror (t t' T : nat) :
  t' = t ∨ t + t' = T →
  ((2 * nR t' / nR T - 1) ^ 2 = (2 * nR t / nR T - 1) ^ 2)%R.
Proof.
  intros [->|Ht]; [done|].
  destruct (decide (T = 0)) as [->|HT].
  { assert (t = 0 ∧ t' = 0) as [-> ->] by lia. done. }
  pose proof (nR_neq_0 T ltac:(lia)) as HT'.
  rewrite <-Ht in *. rewrite nR_add in *.
  replace (2 * nR t' / (nR t + nR t') - 1)%R
    with (- (2 * nR t / (nR t + nR t') - 1))%R by (field; done).
  ring.
Qed.

Lemma spec_d_square_mirror (d_s d_t : R) (T H W t h w t' h' w' : nat) :
  t' = t ∨ t + t' = T → h' = h ∨ h + h' = H → w' = w ∨ w + w' = W →
  spec_d_square d_s d_t T H W t' h' w' = spec_d_square d_s d_t T H W t h w.
Proof.
  intros Ht Hh Hw. unfold spec_d_square. cbv zeta.
  rewrite (centred_coordinate_mirror h h' H Hh),
    (centred_coordinate_mirror w w' W Hw).
  rewrite !Rpow_mult_distr, (centred_coordinate_mirror t t' T Ht). done.
Qed.

(** X6. The gaussian, ideal and butterworth masks are symmetric about the
    centre along each axis: replacing t by T - t, h by H - h or w by W - w
    (any of them, for coordinates >= 1) does not change the value. *)
Theorem looping_masks_mirror_symmetric (shape : list nat) (T H W : nat)
    (device : string) (p : params.t) (m : tensor R)
    (idx idx' : list nat) (t h w t' h' w' : nat) :
  params.method p ∈ ["gaussian"; "ideal"; "butterworth"] →
  last3 shape = Some (T, H, W) →
  get_freq_filter shape device p = Ok m →
  idx ∈ indices shape → last3 idx = Some (t, h, w) →
  idx' ∈ indices shape → last3 idx' = Some (t', h', w') →
  t' = t ∨ t + t' = T → h' = h ∨ h + h' = H → w' = w ∨ w + w' = W →
  tget m idx' = tget m idx.
Proof.
  intros Hp Hs Hm Hi Hl Hi' Hl' Ht Hh Hw.
  destruct (get_freq_filter_radial shape T H W device p Hs Hp)
    as (m' & g & Hm' & _ & Hget).
  rewrite Hm in Hm'. injection Hm' as <-.
  rewrite (Hget _ _ _ _ Hi Hl), (Hget _ _ _ _ Hi' Hl').
  by rewrite (spec_d_square_mirror _ _ T H W t h w t' h' w').
Qed.

Lemma looping_masks_mirror_symmetric_witness :
  ∃ m,
    "butterworth" ∈ ["gaussian"; "ideal"; "butterworth"] ∧
    last3 [1; 1; 4; 4; 4] = Some (4, 4, 4) ∧
    get_freq_filter [1; 1; 4; 4; 4] "cpu"
      (params.Make "butterworth" (1 / 4) (1 / 4) 4) = Ok m ∧
    [0; 0; 1; 2; 1] ∈ indices [1; 1; 4; 4; 4] ∧
    [0; 0; 3; 2; 1] ∈ indices [1; 1; 4; 4; 4] ∧
    (3 = 1 ∨ 1 + 3 = 4) ∧ (2 = 2 ∨ 2 + 2 = 4) ∧ (1 = 1 ∨ 1 + 1 = 4) ∧
    tget m [0; 0; 3; 2; 1] = tget m [0; 0; 1; 2; 1].
Proof.
  set (p := params.Make "butterworth" (1 / 4) (1 / 4) 4).
  assert ("butterworth" ∈ ["gaussian"; "ideal"; "butterworth"]) as Hp
    by (rewrite !elem_of_cons; tauto).
  destruct (get_freq_filter_returns_shape [1; 1; 4; 4; 4] 4 4 4 "cpu" p)
    as (m & Hm & _); [reflexivity|by apply recognized_methods_cases; auto|].
  assert ([0; 0; 1; 2; 1] ∈ indices [1; 1; 4; 4; 4]) as H1 by solve_index.
  assert ([0; 0; 3; 2; 1] ∈ indices [1; 1; 4; 4; 4]) as H2 by solve_index.
  assert (3 = 1 ∨ 1 + 3 = 4) as Ht by (right; reflexivity).
  assert (2 = 2 ∨ 2 + 2 = 4) as Hh by (left; reflexivity).
  assert (1 = 1 ∨ 1 + 1 = 4) as Hw by (left; reflexivity).
  exists m.
  split_and!; [exact Hp|reflexivity|exact Hm|exact H1|exact H2|exact Ht|
               exact Hh|exact Hw|].
  exact (looping_masks_mirror_symmetric [1; 1; 4; 4; 4] 4 4 4 "cpu" p m
           _ _ 1 2 1 3 2 1 Hp eq_refl Hm H1 eq_refl H2 eq_refl Ht Hh Hw).
Defined.

(** ** The centre of the masks *)


Lemma centred_coordinate_even (T : nat) :
  Nat.Even T → 0 < T → (2 * nR (T / 2) / nR T - 1 = 0)%R.
Proof.
  intros [k ->] HT.
  rewrite (Nat.mul_comm 2 k), Nat.div_mul by done.
  replace (k * 2) with (k + k) by lia. rewrite nR_add.
  pose proof (nR_neq_0 k ltac:(lia)). field. lra.
Qed.


Lemma spec_d_square_centre (d_s d_t : R) (T H W : nat) :
  Nat.Even T → Nat.Even H → Nat.Even W → 0 < T → 0 < H → 0 < W →
  spec_d_square d_s d_t T H W (T / 2) (H / 2) (W / 2) = 0%R.
Proof.
  intros ET EH EW HT HH HW. unfold spec_d_square. cbv zeta.
  rewrite !centred_coordinate_even by done. ring.
Qed.

(** X7. When T, H and W are even, the element at the centre index
    (T//2, H//2, W//2) has squared distance 0, and the mask is 1 there: for
    the gaussian filter, for the ideal filter when d_s > 0, and for the
    butterworth filter of order n >= 1.  A butterworth filter of order 0 has
    1/2 there (0.0 ** 0 is 1). *)
Theorem centre_of_even_masks (shape : list nat) (T H W : nat) (d_s d_t : R)
    (n : nat) (idx : list nat) :
  last3 shape = Some (T, H, W) →
  Nat.Even T → Nat.Even H → Nat.Even W →
  (0 < d_s)%R → d_t ≠ 0%R →
  idx ∈ indices shape → last3 idx = Some (T / 2, H / 2, W / 2) →
  (∃ m, gaussian_low_pass_filter shape d_s d_t = Ok m ∧
        tget m idx = Some 1%R) ∧
  (∃ m, ideal_low_pass_filter shape d_s d_t = Ok m ∧
        tget m idx = Some 1%R) ∧
  (∃ m, butterworth_low_pass_filter shape n d_s d_t = Ok m ∧
        tget m idx = Some (if decide (n = 0) then (1 / 2)%R else 1%R)).
Proof.
  intros Hs ET EH EW Hds Hdt Hidx Hl.
  destruct (last3_index _ _ _ _ _ Hidx Hs) as (t & h & w & Hl' & Ht & Hh & Hw).
  rewrite Hl in Hl'. injection Hl' as <- <- <-.
  assert (spec_d_square d_s d_t T H W (T / 2) (H / 2) (W / 2) = 0%R) as Hd
    by (apply spec_d_square_centre; (done || lia)).
  assert (d_s ≠ 0%R) as Hds' by lra.
  split_and!.
  - destruct (gaussian_low_pass_filter_spec shape T H W d_s d_t Hs Hds' Hdt)
      as (m & Hm & _ & _ & Hget).
    exists m. split; [done|]. rewrite (Hget _ _ _ _ Hidx Hl).
    unfold spec_gaussian. rewrite Hd. f_equal. rewrite <-exp_0. f_equal.
    field. done.
  - destruct (ideal_low_pass_filter_spec shape T H W d_s d_t Hs Hds' Hdt)
      as (m & Hm & _ & _ & Hget).
    exists m. split; [done|]. rewrite (Hget _ _ _ _ Hidx Hl), Hd.
    destruct (Rle_dec _ _); [done|lra].
  - destruct (butterworth_low_pass_filter_spec shape T H W d_s d_t Hs Hds' Hdt n)
      as (m & Hm & _ & _ & Hget).
    exists m. split; [done|]. rewrite (Hget _ _ _ _ Hidx Hl).
    unfold spec_butterworth. rewrite Hd. f_equal.
    replace (0 / d_s ^ 2)%R with 0%R by (field; done).
    case_decide as Hn.
    + subst n. simpl. lra.
    + rewrite pow_ne_zero by done. lra.
Qed.

Lemma centre_of_even_masks_witness :
  last3 [1; 1; 4; 4; 4] = Some (4, 4, 4) ∧ Nat.Even 4 ∧
  (0 < 1 / 4)%R ∧ (1 / 4)%R ≠ 0%R ∧
  [0; 0; 2; 2; 2] ∈ indices [1; 1; 4; 4; 4] ∧
  last3 [0; 0; 2; 2; 2] = Some (4 / 2, 4 / 2, 4 / 2) ∧
  (∃ m, gaussian_low_pass_filter [1; 1; 4; 4; 4] (1 / 4) (1 / 4) = Ok m ∧
        tget m [0; 0; 2; 2; 2] = Some 1%R) ∧
  (∃ m, ideal_low_pass_filter [1; 1; 4; 4; 4] (1 / 4) (1 / 4) = Ok m ∧
        tget m [0; 0; 2; 2; 2] = Some 1%R) ∧
  (∃ m, butterworth_low_pass_filter [1; 1; 4; 4; 4] 4 (1 / 4) (1 / 4) = Ok m ∧
        tget m [0; 0; 2; 2; 2]
        = Some (if decide (4 = 0) then (1 / 2)%R else 1%R)).
Proof.
  assert (Nat.Even 4) as He by (exists 2; reflexivity).
  assert (0 < 1 / 4)%R as Hds by lra.
  assert ((1 / 4)%R ≠ 0%R) as Hdt by lra.
  assert ([0; 0; 2; 2; 2] ∈ indices [1; 1; 4; 4; 4]) as Hidx by solve_index.
  split_and!; [reflexivity|exact He|exact Hds|exact Hdt|exact Hidx|
               reflexivity|..];
    apply (centre_of_even_masks [1; 1; 4; 4; 4] 4 4 4 (1 / 4) (1 / 4) 4
             [0; 0; 2; 2; 2] eq_refl He He He Hds Hdt Hidx eq_refl).
Defined.



(** ** The box filter on the documented range of the cutoffs *)

Lemma py_round_nonneg (x : R) : (0 <= x)%R → (0 ≤ py_round x)%Z.
Proof.
  intros Hx. pose proof (Zfloor_lub 0 x Hx) as Hf. unfold py_round.
  repeat destruct (Rlt_dec _ _); try destruct (Z.even _); lia.
Qed.

Lemma py_round_le (x : R) (c : Z) : (x <= IZR c)%R → (py_round x ≤ c)%Z.
Proof.
  intros Hx. pose proof (Zfloor_bound x) as [Hf1 Hf2]. unfold py_round.
  destruct (Rlt_dec _ _) as [Hr|Hr].
  - apply le_IZR. lra.
  - assert (Zfloor x < c)%Z by (apply lt_IZR; lra).
    destruct (Rlt_dec _ _); try destruct (Z.even _); lia.
Qed.

Lemma box_threshold_range (n : nat) (d : R) :
  (0 <= d <= 1)%R → (0 ≤ box_threshold n d ≤ Z.of_nat (n / 2))%Z.
Proof.
  intros Hd. pose proof (nR_nonneg (n / 2)) as Hn. unfold box_threshold. split.
  - apply py_round_nonneg. nra.
  - apply py_round_le. fold (nR (n / 2)). nra.
Qed.

(** X9. For cutoffs in the documented range, 0 < d_s <= 1 and 0 < d_t <= 1,
    and a width whose half is not smaller than the half of the height
    (H // 2 <= W // 2), no slice bound is negative and the box mask is binary
    with value 1 exactly on the centred block
    [center - threshold, center + threshold) of each axis. *)
Theorem box_mask_centred_in_documented_range (shape : list nat) (T H W : nat)
    (d_s d_t : R) :
  last3 shape = Some (T, H, W) →
  (0 < d_s <= 1)%R → (0 < d_t <= 1)%R → H / 2 ≤ W / 2 →
  ∃ m, box_low_pass_filter shape d_s d_t = Ok m ∧
       ∀ idx t h w, idx ∈ indices shape → last3 idx = Some (t, h, w) →
         ∃ v, tget m idx = Some v ∧ (v = 0%R ∨ v = 1%R) ∧
              (v = 1%R ↔ spec_box_block T H W d_s d_t t h w).
Proof.
  intros Hs Hds Hdt HHW.
  destruct (box_low_pass_filter_spec shape T H W d_s d_t)
    as (m & Hm & _ & _ & Hget); [done|lra|lra|].
  exists m. split; [done|]. intros idx t h w Hidx Hl.
  destruct (last3_index _ _ _ _ _ Hidx Hs) as (t' & h' & w' & Hl' & ? & ? & ?).
  rewrite Hl in Hl'. injection Hl' as <- <- <-.
  pose proof (box_threshold_range T d_t ltac:(lra)) as HtT.
  pose proof (box_threshold_range H d_s ltac:(lra)) as HtH.
  pose proof (box_selects_centred T H W d_s d_t t h w) as Hiff.
  eexists. split; [by apply Hget|].
  destruct (box_selects T H W d_s d_t t h w).
  - split; [by right|]. split; [intros _; apply Hiff; (done || lia)|done].
  - split; [by left|]. split; [lra|].
    intros Hb. apply Hiff in Hb; (done || lia).
Qed.

Lemma box_mask_centred_in_documented_range_witness :
  last3 [1; 1; 4; 4; 6] = Some (4, 4, 6) ∧
  (0 < 1 / 2 <= 1)%R ∧ 4 / 2 ≤ 6 / 2 ∧
  ∃ m, box_low_pass_filter [1; 1; 4; 4; 6] (1 / 2) (1 / 2) = Ok m ∧
       ∀ idx t h w, idx ∈ indices [1; 1; 4; 4; 6] →
         last3 idx = Some (t, h, w) →
         ∃ v, tget m idx = Some v ∧ (v = 0%R ∨ v = 1%R) ∧
              (v = 1%R ↔ spec_box_block 4 4 6 (1 / 2) (1 / 2) t h w).
Proof.
  assert (0 < 1 / 2 <= 1)%R as Hd by lra.
  assert (4 / 2 ≤ 6 / 2) as HHW by (simpl; lia).
  split; [reflexivity|]. split; [exact Hd|]. split; [exact HHW|].
  exact (box_mask_centred_in_documented_range [1; 1; 4; 4; 6] 4 4 6
           (1 / 2) (1 / 2) eq_refl Hd Hd HHW).
Defined.

(** ** Negative cutoffs *)

Lemma in_slice_nonpos_threshold (th : Z) (n i : nat) :
  (th ≤ 0)%Z →
  in_slice (Z.of_nat (n / 2) - th) (Z.of_nat (n / 2) + th) n i = false.
Proof.
  intros Hth. pose proof (Nat.div_mod_eq n 2) as Hn.
  pose proof (Nat.mod_upper_bound n 2 ltac:(lia)) as Hmod.
  set (c := n / 2) in *. unfold in_slice, adjust_index.
  apply andb_false_iff.
  destruct (Z.ltb_spec (Z.of_nat c - th) 0), (Z.ltb_spec (Z.of_nat c + th) 0);
    rewrite !bool_decide_eq_false; lia.
Qed.

Lemma box_selects_nonpos_threshold (T H W : nat) (d_s d_t : R) (t h w : nat) :
  (box_threshold T d_t ≤ 0)%Z ∨ (box_threshold H d_s ≤ 0)%Z →
  box_selects T H W d_s d_t t h w = false.
Proof.
  unfold box_selects. intros [Hth|Hth].
  - by rewrite (in_slice_nonpos_threshold _ T t Hth).
  - rewrite (in_slice_nonpos_threshold _ H h Hth). by rewrite andb_false_r.
Qed.

(** X10. Negative cutoffs are not refused.  The ideal filter returns the zero
    mask for every d_s < 0 (no squared distance is below 2·d_s), and the box
    filter returns the zero mask when d_s <= 0 or d_t <= 0 (the threshold is
    not positive and the slice is empty). *)
Theorem negative_cutoff_gives_zero_mask (shape : list nat) (T H W : nat)
    (d_s d_t : R) :
  last3 shape = Some (T, H, W) →
  ((d_s < 0)%R → ideal_low_pass_filter shape d_s d_t = Ok (torch_zeros shape)) ∧
  ((d_s <= 0)%R ∨ (d_t <= 0)%R →
   box_low_pass_filter shape d_s d_t = Ok (torch_zeros shape)).
Proof.
  intros Hs. split.
  - intros Hds.
    destruct (decide (d_s = 0%R ∨ d_t = 0%R)) as [Hz|Hz].
    { by eapply ideal_zero_cutoff. }
    destruct (ideal_low_pass_filter_spec shape T H W d_s d_t)
      as (m & -> & Hsh & Hwf & Hget); [done|tauto|tauto|].
    f_equal. apply tensor_ext; [done|apply wf_zeros|done|].
    rewrite Hsh. intros idx Hidx.
    destruct (last3_index _ _ _ _ _ Hidx Hs) as (t & h & w & Hl & _).
    rewrite (Hget _ _ _ _ Hidx Hl), tget_zeros by done.
    pose proof (spec_d_square_nonneg d_s d_t T H W t h w).
    destruct (Rle_dec _ _); [lra|done].
  - intros Hneg.
    destruct (decide (d_s = 0%R ∨ d_t = 0%R)) as [Hz|Hz].
    { by eapply box_zero_cutoff. }
    destruct (box_low_pass_filter_spec shape T H W d_s d_t)
      as (m & -> & Hsh & Hwf & Hget); [done|tauto|tauto|].
    f_equal. apply tensor_ext; [done|apply wf_zeros|done|].
    rewrite Hsh. intros idx Hidx.
    destruct (last3_index _ _ _ _ _ Hidx Hs) as (t & h & w & Hl & _).
    rewrite (Hget _ _ _ _ Hidx Hl), tget_zeros by done.
    rewrite box_selects_nonpos_threshold; [done|].
    destruct Hneg as [Hd|Hd]; [right|left]; unfold box_threshold;
      apply py_round_le.
    + pose proof (nR_nonneg (H / 2)) as Hn.
      rewrite <-(Rmult_0_r (nR (H / 2))). by apply Rmult_le_compat_l.
    + pose proof (nR_nonneg (T / 2)) as Hn.
      rewrite <-(Rmult_0_r (nR (T / 2))). by apply Rmult_le_compat_l.
Qed.

Lemma negative_cutoff_gives_zero_mask_witness :
  last3 [1; 1; 4; 4; 4] = Some (4, 4, 4) ∧ (- (1 / 4) < 0)%R ∧
  ideal_low_pass_filter [1; 1; 4; 4; 4] (- (1 / 4)) (1 / 4)
  = Ok (torch_zeros [1; 1; 4; 4; 4]) ∧
  box_low_pass_filter [1; 1; 4; 4; 4] (- (1 / 4)) (1 / 4)
  = Ok (torch_zeros [1; 1; 4; 4; 4]).
Proof.
  assert (- (1 / 4) < 0)%R as Hd by lra.
  split_and!; [reflexivity|exact Hd|..].
  - apply (negative_cutoff_gives_zero_mask [1; 1; 4; 4; 4] 4 4 4
             (- (1 / 4)) (1 / 4) eq_refl). exact Hd.
  - apply (negative_cutoff_gives_zero_mask [1; 1; 4; 4; 4] 4 4 4
             (- (1 / 4)) (1 / 4) eq_refl). left. lra.
Defined.

Lemma spec_d_square_sign (d_s d_t d_s' d_t' : R) (T H W t h w : nat) :
  (d_s' ^ 2 = d_s ^ 2)%R → (d_t' ^ 2 = d_t ^ 2)%R →
  spec_d_square d_s' d_t' T H W t h w = spec_d_square d_s d_t T H W t h w.
Proof.
  intros Hs Ht. unfold spec_d_square. cbv zeta.
  do 2 f_equal. unfold Rdiv. rewrite !Rpow_mult_distr, !pow_inv.
  by rewrite Hs, Ht.
Qed.

Lemma square_eq_zero_iff (x y : R) :
  (x ^ 2 = y ^ 2)%R → x = 0%R ↔ y = 0%R.
Proof. intros Hxy. split; intros ->; nra. Qed.

Lemma looping_filters_sign (shape : list nat) (d_s d_t d_s' d_t' : R)
    (n : nat) :
  (d_s' ^ 2 = d_s ^ 2)%R → (d_t' ^ 2 = d_t ^ 2)%R →
  gaussian_low_pass_filter shape d_s' d_t'
  = gaussian_low_pass_filter shape d_s d_t ∧
  butterworth_low_pass_filter shape n d_s' d_t'
  = butterworth_low_pass_filter shape n d_s d_t.
Proof.
  intros Hs Ht.
  pose proof (square_eq_zero_iff _ _ Hs) as Hs0.
  pose proof (square_eq_zero_iff _ _ Ht) as Ht0.
  destruct (last3 shape) as [[[T H] W]|] eqn:Hl.
  2:{ assert (trailing_dims shape = Raise IndexError) as Hr
        by (unfold trailing_dims; by rewrite Hl).
      unfold gaussian_low_pass_filter, butterworth_low_pass_filter.
      by rewrite Hr. }
  destruct (decide (d_s = 0%R ∨ d_t = 0%R)) as [Hz|Hz].
  { assert (d_s' = 0%R ∨ d_t' = 0%R) as Hz' by tauto.
    rewrite (gaussian_zero_cutoff _ _ _ _ _ _ Hl Hz),
      (gaussian_zero_cutoff _ _ _ _ _ _ Hl Hz'),
      (butterworth_zero_cutoff _ _ _ _ _ _ Hl Hz),
      (butterworth_zero_cutoff _ _ _ _ _ _ Hl Hz'). done. }
  assert (d_s ≠ 0%R ∧ d_t ≠ 0%R ∧ d_s' ≠ 0%R ∧ d_t' ≠ 0%R)
    as (Hd1 & Hd2 & Hd3 & Hd4) by tauto.
  split.
  - destruct (gaussian_low_pass_filter_spec shape T H W d_s d_t Hl Hd1 Hd2)
      as (m & -> & Hsh & Hwf & Hget).
    destruct (gaussian_low_pass_filter_spec shape T H W d_s' d_t' Hl Hd3 Hd4)
      as (m' & -> & Hsh' & Hwf' & Hget').
    f_equal. apply tensor_ext; [done|done|congruence|].
    rewrite Hsh'. intros idx Hidx.
    destruct (last3_index _ _ _ _ _ Hidx Hl) as (t & h & w & Hl3 & _).
    rewrite (Hget _ _ _ _ Hidx Hl3), (Hget' _ _ _ _ Hidx Hl3).
    unfold spec_gaussian.
    by rewrite (spec_d_square_sign d_s d_t d_s' d_t'), Hs.
  - destruct (butterworth_low_pass_filter_spec shape T H W d_s d_t Hl Hd1 Hd2 n)
      as (m & -> & Hsh & Hwf & Hget).
    destruct (butterworth_low_pass_filter_spec shape T H W d_s' d_t' Hl Hd3 Hd4 n)
      as (m' & -> & Hsh' & Hwf' & Hget').
    f_equal. apply tensor_ext; [done|done|congruence|].
    rewrite Hsh'. intros idx Hidx.
    destruct (last3_index _ _ _ _ _ Hidx Hl) as (t & h & w & Hl3 & _).
    rewrite (Hget _ _ _ _ Hidx Hl3), (Hget' _ _ _ _ Hidx Hl3).
    unfold spec_butterworth.
    by rewrite (spec_d_square_sign d_s d_t d_s' d_t'), Hs.
Qed.

(** X11. The gaussian and the butterworth filter do not see the sign of a
    cutoff: d_s enters through d_s² and through the square of d_s/d_t only,
    so a negated d_s or d_t gives the same result (mask or exception). *)
Theorem smooth_filters_ignore_cutoff_sign (shape : list nat) (d_s d_t : R)
    (n : nat) :
  gaussian_low_pass_filter shape (- d_s) d_t
  = gaussian_low_pass_filter shape d_s d_t ∧
  gaussian_low_pass_filter shape d_s (- d_t)
  = gaussian_low_pass_filter shape d_s d_t ∧
  butterworth_low_pass_filter shape n (- d_s) d_t
  = butterworth_low_pass_filter shape n d_s d_t ∧
  butterworth_low_pass_filter shape n d_s (- d_t)
  = butterworth_low_pass_filter shape n d_s d_t.
Proof.
  destruct (looping_filters_sign shape d_s d_t (- d_s) d_t n) as [Hg1 Hb1];
    [ring|done|].
  destruct (looping_filters_sign shape d_s d_t d_s (- d_t) n) as [Hg2 Hb2];
    [done|ring|].
  done.
Qed.

(** * Further properties of the mixer *)

(** ** The closed form *)

Lemma foldr_tshape (op : nat → tensor complex → tensor complex)
    (m : tensor complex) (axes : list nat) :
  (∀ a m, tshape (op a m) = tshape m) →
  tshape (foldr op m axes) = tshape m.
Proof.
  intros Hop. induction axes as [|a axes IH]; [done|]. simpl.
  by rewrite Hop.
Qed.

Lemma forward_transform_shape (x : tensor R) :
  tshape (forward_transform x) = tshape x.
Proof. unfold forward_transform. by rewrite !foldr_tshape. Qed.

Lemma forward_transform_wf (x : tensor R) : wf (forward_transform x).
Proof. apply wf_tabulate. Qed.

Lemma inverse_transform_shape (m : tensor complex) :
  tshape (inverse_transform m) = tshape m.
Proof. unfold inverse_transform. by rewrite !foldr_tshape. Qed.

Lemma inverse_transform_wf (m : tensor complex) : wf (inverse_transform m).
Proof. apply wf_tabulate. Qed.

Lemma mix_closed_shape (x noise LPF : tensor R) :
  tshape (mix_closed x noise LPF) = tshape x.
Proof.
  unfold mix_closed. change (tshape (tmap Re ?m)) with (tshape m).
  by rewrite inverse_transform_shape.
Qed.

Lemma mix_closed_wf (x noise LPF : tensor R) : wf (mix_closed x noise LPF).
Proof. apply wf_tmap, inverse_transform_wf. Qed.

(** The centred spectrum the mixer computes is [forward_transform]. *)
Lemma spectrum_of_forward_transform (x : tensor R) (T H W : nat) :
  last3 (tshape x) = Some (T, H, W) → 1 ≤ T → 1 ≤ H → 1 ≤ W →
  spectrum_of x (forward_transform x).
Proof.
  intros Hs HT HH HW. pose proof (last3_length _ _ _ _ Hs) as Hr.
  eexists. unfold fftn. split.
  - rewrite (has_data_points_last_three _ T H W), bind_Ok by done.
    by apply along_last_three_dims.
  - unfold fftshift. rewrite along_last_three_dims by done. done.
Qed.

Lemma inverse_transform_Ok (m : tensor complex) (T H W : nat) :
  last3 (tshape m) = Some (T, H, W) → 1 ≤ T → 1 ≤ H → 1 ≤ W →
  (m' ← ifftshift m last_three_dims; ifftn m' last_three_dims)
  = Ok (inverse_transform m).
Proof.
  intros Hs HT HH HW. pose proof (last3_length _ _ _ _ Hs) as Hr.
  unfold ifftshift. rewrite along_last_three_dims, bind_Ok by done.
  unfold ifftn.
  rewrite (has_data_points_last_three _ T H W), bind_Ok by done.
  rewrite along_last_three_dims by done. done.
Qed.

(** Where the shapes fit, [freq_mix_3d] returns [mix_closed]. *)
Lemma freq_mix_3d_closed (x noise LPF : tensor R) (T H W : nat) :
  wf LPF → tshape noise = tshape x →
  last3 (tshape x) = Some (T, H, W) → 1 ≤ T → 1 ≤ H → 1 ≤ W →
  broadcast_shapes (tshape x) (tshape LPF) = Some (tshape x) →
  freq_mix_3d x noise LPF = Ok (mix_closed x noise LPF).
Proof.
  intros Hl Hsn Hs HT HH HW Hb.
  destruct (spectrum_of_forward_transform x T H W) as (fx & Hfx & Hsx);
    [done..|].
  destruct (spectrum_of_forward_transform noise T H W) as (fn & Hfn & Hsnn);
    [by rewrite Hsn|done..|].
  unfold freq_mix_3d.
  rewrite Hfx, bind_Ok, Hsx, bind_Ok, Hfn, bind_Ok, Hsnn, bind_Ok.
  unfold broadcast_op at 3. rewrite forward_transform_shape, Hb, bind_Ok.
  unfold broadcast_op at 2.
  rewrite forward_transform_shape, Hsn. simpl tshape. rewrite Hb, bind_Ok.
  unfold broadcast_op at 1. simpl tshape.
  rewrite broadcast_shapes_same, bind_Ok.
  match goal with
  | |- context [ifftshift ?m _] =>
      assert (m = mixed_spectrum (forward_transform x)
                    (forward_transform noise) LPF (tshape x)) as ->
  end.
  { apply tabulate_ext. intros idx Hidx.
    rewrite !(broadcast_index_same (tshape x)) by done.
    rewrite !tgetd_tabulate by done.
    rewrite !(broadcast_index_same (tshape x)) by done.
    assert (broadcast_index (tshape LPF) idx ∈ indices (tshape LPF)) as Hv
      by by eapply broadcast_index_valid.
    pose proof (tget_tgetd LPF _ Hl Hv) as Hget.
    by rewrite (tgetd_tmap _ _ _ _ Hget). }
  pose proof (inverse_transform_Ok
    (mixed_spectrum (forward_transform x) (forward_transform noise) LPF
       (tshape x)) T H W Hs HT HH HW) as Hinv.
  destruct (ifftshift _ _) as [m'|e]; [|done].
  rewrite bind_Ok in Hinv. by rewrite bind_Ok, Hinv, bind_Ok.
Qed.

(** ** Linear combinations *)

Lemma tmap_tabulate {A B} (f : A → B) (s : list nat) (g : list nat → A) :
  tmap f (tabulate s g) = tabulate s (λ idx, f (g idx)).
Proof. unfold tmap, tabulate. simpl. f_equal. by rewrite <-list_fmap_compose. Qed.

Lemma tgetd_ctlin (a b : R) (x y : tensor complex) idx :
  idx ∈ indices (tshape x) →
  tgetd (ctlin a b x y) idx
  = Cadd (Cscale (tgetd x idx) a) (Cscale (tgetd y idx) b).
Proof. intros Hidx. unfold ctlin. by rewrite tgetd_tabulate. Qed.

Lemma tgetd_tlin (a b : R) (x y : tensor R) idx :
  idx ∈ indices (tshape x) →
  tgetd (tlin a b x y) idx = (a * tgetd x idx + b * tgetd y idx)%R.
Proof. intros Hidx. unfold tlin. by rewrite tgetd_tabulate. Qed.

Lemma tgetd_tmap_wf {A B} `{Inhabited A, Inhabited B} (f : A → B)
    (m : tensor A) idx :
  wf m → idx ∈ indices (tshape m) → tgetd (tmap f m) idx = f (tgetd m idx).
Proof. intros Hwf Hidx. apply tgetd_tmap. by apply tget_tgetd. Qed.

Lemma tmap_RtoC_tlin (a b : R) (x y : tensor R) :
  wf x → wf y → tshape y = tshape x →
  tmap RtoC (tlin a b x y) = ctlin a b (tmap RtoC x) (tmap RtoC y).
Proof.
  intros Hx Hy Hs. unfold tlin, ctlin. rewrite tmap_tabulate.
  apply tabulate_ext. intros idx Hidx.
  rewrite !tgetd_tmap_wf by (rewrite ?Hs; done).
  generalize (tgetd x idx), (tgetd y idx). intros u v. complex_eq.
Qed.

Lemma tmap_Re_ctlin (a b : R) (x y : tensor complex) :
  wf x → wf y → tshape y = tshape x →
  tmap Re (ctlin a b x y) = tlin a b (tmap Re x) (tmap Re y).
Proof.
  intros Hx Hy Hs. unfold tlin, ctlin. rewrite tmap_tabulate.
  apply tabulate_ext. intros idx Hidx.
  rewrite !tgetd_tmap_wf by (rewrite ?Hs; done).
  generalize (tgetd x idx), (tgetd y idx). intros u v. complex_eq.
Qed.

Lemma axis_linear_ctlin (K : nat → nat → nat → complex) (a : nat) (c d : R)
    (x y : tensor complex) :
  tshape y = tshape x →
  axis_linear K a (ctlin c d x y)
  = ctlin c d (axis_linear K a x) (axis_linear K a y).
Proof.
  intros Hs.
  assert (tshape (ctlin c d x y) = tshape x) as Hz by done.
  set (z := ctlin c d x y) in *. unfold axis_linear at 1, ctlin.
  rewrite Hz. change (tshape (axis_linear K a x)) with (tshape x).
  apply tabulate_ext. intros idx Hidx. subst z.
  rewrite !axis_linear_get by (rewrite ?Hs; done). rewrite Hs.
  rewrite <-!Csum_scale, <-Csum_add. apply Csum_ext. intros j Hj.
  rewrite tgetd_ctlin by by apply index_insert.
  generalize (tgetd x (<[a:=j]> idx)), (tgetd y (<[a:=j]> idx)),
    (K (tshape x !!! a) j (idx !!! a)).
  intros u v k. complex_eq.
Qed.

Lemma index_insert_mod (s idx : list nat) (a j : nat) :
  idx ∈ indices s → <[a:=j `mod` (s !!! a)]> idx ∈ indices s.
Proof.
  intros Hidx. destruct (decide (a < length s)) as [Ha|Ha].
  - apply index_insert; [done|]. apply Nat.mod_upper_bound.
    pose proof (index_lookup_lt s idx a Hidx Ha). lia.
  - rewrite list_insert_ge; [done|]. apply index_length in Hidx. lia.
Qed.

Lemma roll_axis_ctlin (sh : nat → nat) (a : nat) (c d : R)
    (x y : tensor complex) :
  tshape y = tshape x →
  roll_axis sh a (ctlin c d x y)
  = ctlin c d (roll_axis sh a x) (roll_axis sh a y).
Proof.
  intros Hs.
  assert (tshape (ctlin c d x y) = tshape x) as Hz by done.
  set (z := ctlin c d x y) in *. unfold roll_axis at 1, ctlin.
  rewrite Hz. change (tshape (roll_axis sh a x)) with (tshape x).
  apply tabulate_ext. intros idx Hidx. subst z.
  rewrite !roll_axis_get by (rewrite ?Hs; done). rewrite Hs.
  by rewrite tgetd_ctlin by by apply index_insert_mod.
Qed.

Lemma foldr_ctlin (op : nat → tensor complex → tensor complex)
    (axes : list nat) (c d : R) (x y : tensor complex) :
  (∀ a m, tshape (op a m) = tshape m) →
  (∀ a x y, tshape y = tshape x →
     op a (ctlin c d x y) = ctlin c d (op a x) (op a y)) →
  tshape y = tshape x →
  foldr op (ctlin c d x y) axes
  = ctlin c d (foldr op x axes) (foldr op y axes).
Proof.
  intros Hshape Hlin Hs. induction axes as [|a axes IH]; [done|]. simpl.
  rewrite IH, Hlin; [done|]. by rewrite !foldr_tshape.
Qed.

Lemma last_three_axes_shape {A B} (x : tensor A) (y : tensor B) :
  tshape y = tshape x → last_three_axes y = last_three_axes x.
Proof. unfold last_three_axes. by intros ->. Qed.

Lemma forward_transform_tlin (a b : R) (x y : tensor R) :
  wf x → wf y → tshape y = tshape x →
  forward_transform (tlin a b x y)
  = ctlin a b (forward_transform x) (forward_transform y).
Proof.
  intros Hx Hy Hs. unfold forward_transform.
  rewrite (last_three_axes_shape x (tlin a b x y)) by done.
  rewrite (last_three_axes_shape x y) by done.
  rewrite tmap_RtoC_tlin by done.
  rewrite foldr_ctlin; [|done|intros; by apply axis_linear_ctlin|done].
  rewrite foldr_ctlin; [done|done|intros; by apply roll_axis_ctlin|].
  by rewrite !foldr_tshape.
Qed.

Lemma inverse_transform_ctlin (a b : R) (x y : tensor complex) :
  tshape y = tshape x →
  inverse_transform (ctlin a b x y)
  = ctlin a b (inverse_transform x) (inverse_transform y).
Proof.
  intros Hs. unfold inverse_transform.
  rewrite (last_three_axes_shape x (ctlin a b x y)) by done.
  rewrite (last_three_axes_shape x y) by done.
  rewrite foldr_ctlin; [|done|intros; by apply roll_axis_ctlin|done].
  rewrite foldr_ctlin; [done|done|intros; by apply axis_linear_ctlin|].
  by rewrite !foldr_tshape.
Qed.

Lemma mixed_spectrum_ctlin (a b : R) (xs xs' ns ns' : tensor complex)
    (LPF : tensor R) :
  tshape ns = tshape xs →
  mixed_spectrum (ctlin a b xs xs') (ctlin a b ns ns') LPF (tshape xs)
  = ctlin a b (mixed_spectrum xs ns LPF (tshape xs))
      (mixed_spectrum xs' ns' LPF (tshape xs)).
Proof.
  intros Hs. unfold mixed_spectrum at 1, ctlin at 3.
  change (tshape (mixed_spectrum xs ns LPF (tshape xs))) with (tshape xs).
  apply tabulate_ext. intros idx Hidx.
  unfold mixed_spectrum. rewrite !tgetd_tabulate by done.
  rewrite !tgetd_ctlin by (rewrite ?Hs; done). cbv zeta.
  generalize (tgetd LPF (broadcast_index (tshape LPF) idx)),
    (tgetd xs idx), (tgetd xs' idx), (tgetd ns idx), (tgetd ns' idx).
  intros l u u' v v'. complex_eq.
Qed.

Lemma mix_closed_tlin (a b : R) (x x' noise noise' LPF : tensor R) :
  wf x → wf x' → wf noise → wf noise' →
  tshape x' = tshape x → tshape noise = tshape x → tshape noise' = tshape x →
  mix_closed (tlin a b x x') (tlin a b noise noise') LPF
  = tlin a b (mix_closed x noise LPF) (mix_closed x' noise' LPF).
Proof.
  intros Hx Hx' Hn Hn' Hsx' Hsn Hsn'. unfold mix_closed.
  rewrite !forward_transform_tlin by (done || congruence).
  change (tshape (tlin a b x x')) with (tshape x).
  rewrite <-(forward_transform_shape x) at 1.
  rewrite mixed_spectrum_ctlin by by rewrite !forward_transform_shape.
  rewrite forward_transform_shape.
  rewrite inverse_transform_ctlin by done.
  rewrite tmap_Re_ctlin; [|apply inverse_transform_wf..|].
  - by rewrite Hsx'.
  - by rewrite !inverse_transform_shape.
Qed.

Lemma resolve_dims_short (r : nat) :
  r < 3 → resolve_dims r last_three_dims = Raise IndexError.
Proof.
  intros Hr. unfold last_three_dims. cbn [resolve_dims].
  assert (resolve_dim r (-3) = Raise IndexError) as ->; [|done].
  unfold resolve_dim. apply decide_False. lia.
Qed.

Lemma mix_closed_same (x LPF : tensor R) (T H W : nat) :
  wf x → wf LPF →
  last3 (tshape x) = Some (T, H, W) → 1 ≤ T → 1 ≤ H → 1 ≤ W →
  broadcast_shapes (tshape x) (tshape LPF) = Some (tshape x) →
  mix_closed x x LPF = x.
Proof.
  intros Hx Hl Hs HT HH HW Hb.
  assert (freq_mix_3d x x LPF = Ok x) as Hsel.
  { apply (freq_mix_3d_select _ _ _ _ T H W); try done.
    intros xs ns ys idx l Hxs Hns Hys Hidx _.
    rewrite (spectrum_of_unique _ _ _ Hys Hxs),
      (spectrum_of_unique _ _ _ Hns Hxs).
    generalize (tgetd xs idx). intros z. complex_eq. }
  rewrite (freq_mix_3d_closed x x LPF T H W) in Hsel by done.
  by injection Hsel.
Qed.

Lemma get_freq_filter_zero_cutoff shape T H W device (p : params.t) :
  last3 shape = Some (T, H, W) →
  params.method p ∈ recognized_methods →
  params.d_s p = 0%R ∨ params.d_t p = 0%R →
  get_freq_filter shape device p = Ok (torch_zeros shape).
Proof.
  intros Hs [Hm|[Hm|[Hm|Hm]]]%recognized_methods_cases Hz.
  - rewrite get_freq_filter_gaussian by done. by eapply gaussian_zero_cutoff.
  - rewrite get_freq_filter_ideal by done. by eapply ideal_zero_cutoff.
  - rewrite get_freq_filter_box by done. by eapply box_zero_cutoff.
  - rewrite get_freq_filter_butterworth by done.
    by eapply butterworth_zero_cutoff.
Qed.

(** ** What the mixer returns and what it refuses *)

(** X12. For [x] and [noise] of one shape with trailing dimensions
    T, H, W >= 1 and a mask that broadcasts to that shape, [freq_mix_3d]
    raises nothing and returns a real tensor of the shape of [x]. *)
Theorem mixer_returns_input_shape (x noise LPF : tensor R) (T H W : nat) :
  wf LPF → tshape noise = tshape x →
  last3 (tshape x) = Some (T, H, W) → 1 ≤ T → 1 ≤ H → 1 ≤ W →
  broadcast_shapes (tshape x) (tshape LPF) = Some (tshape x) →
  ∃ y, freq_mix_3d x noise LPF = Ok y ∧ tshape y = tshape x ∧ wf y.
Proof.
  intros Hl Hsn Hs HT HH HW Hb. exists (mix_closed x noise LPF).
  split; [by apply (freq_mix_3d_closed x noise LPF T H W)|].
  split; [apply mix_closed_shape|apply mix_closed_wf].
Qed.

Lemma mixer_returns_input_shape_witness :
  let x := Tensor [2; 1; 1; 2] [1; 2; 3; 4]%R in
  let noise := Tensor [2; 1; 1; 2] [5; 6; 7; 8]%R in
  let LPF := Tensor [1; 1; 2] [1 / 4; 3 / 4]%R in
  ∃ y, freq_mix_3d x noise LPF = Ok y ∧ tshape y = [2; 1; 1; 2] ∧ wf y.
Proof.
  intros x noise LPF.
  apply (mixer_returns_input_shape x noise LPF 1 1 2);
    [reflexivity|reflexivity|reflexivity|lia|lia|lia|reflexivity].
Defined.

(** X13. The two functions fit together: for every recognised method and
    all cutoffs, the mask that [get_freq_filter] builds for the shape of [x]
    is accepted by [freq_mix_3d], which returns a tensor of the shape of
    [x]. *)
Theorem mixer_accepts_filter_of_input_shape (x noise : tensor R)
    (device : string) (p : params.t) (T H W : nat) :
  tshape noise = tshape x →
  last3 (tshape x) = Some (T, H, W) → 1 ≤ T → 1 ≤ H → 1 ≤ W →
  params.method p ∈ recognized_methods →
  ∃ LPF y, get_freq_filter (tshape x) device p = Ok LPF ∧
           freq_mix_3d x noise LPF = Ok y ∧ tshape y = tshape x ∧ wf y.
Proof.
  intros Hsn Hs HT HH HW Hm.
  destruct (get_freq_filter_returns_shape (tshape x) T H W device p Hs Hm)
    as (LPF & HLPF & Hsl & Hwfl).
  exists LPF, (mix_closed x noise LPF). split; [done|].
  split; [|split; [apply mix_closed_shape|apply mix_closed_wf]].
  apply (freq_mix_3d_closed x noise LPF T H W); try done.
  rewrite Hsl. apply broadcast_shapes_same.
Qed.

Lemma mixer_accepts_filter_of_input_shape_witness :
  let x := Tensor [1; 1; 2; 2] [1; 2; 3; 4]%R in
  let noise := Tensor [1; 1; 2; 2] [5; 6; 7; 8]%R in
  ∃ LPF y, get_freq_filter [1; 1; 2; 2] "cpu"
             (params.Make "butterworth" (1 / 4) (1 / 4) 4) = Ok LPF ∧
           freq_mix_3d x noise LPF = Ok y ∧ tshape y = [1; 1; 2; 2] ∧ wf y.
Proof.
  intros x noise.
  apply (mixer_accepts_filter_of_input_shape x noise "cpu"
           (params.Make "butterworth" (1 / 4) (1 / 4) 4) 1 2 2);
    [reflexivity|reflexivity|lia|lia|lia|].
  apply recognized_methods_cases. by right; right; right.
Defined.

(** X14. [freq_mix_3d] transforms along the dimensions -3, -2 and -1: an
    [x] with fewer than three dimensions raises [IndexError].  A mask whose
    shape does not broadcast with the shape of [x] raises [RuntimeError]
    (after both transforms have been computed). *)
Theorem mixer_rejects_bad_shapes (x noise LPF : tensor R) :
  (length (tshape x) < 3 → freq_mix_3d x noise LPF = Raise IndexError) ∧
  (∀ T H W, tshape noise = tshape x →
     last3 (tshape x) = Some (T, H, W) → 1 ≤ T → 1 ≤ H → 1 ≤ W →
     broadcast_shapes (tshape x) (tshape LPF) = None →
     freq_mix_3d x noise LPF = Raise RuntimeError).
Proof.
  split.
  - intros Hr. unfold freq_mix_3d.
    assert (fftn (tmap RtoC x) last_three_dims = Raise IndexError) as ->;
      [|done].
    unfold fftn, has_data_points.
    change (tshape (tmap RtoC x)) with (tshape x).
    by rewrite resolve_dims_short by done.
  - intros T H W Hsn Hs HT HH HW Hb.
    destruct (spectrum_of_forward_transform x T H W) as (fx & Hfx & Hsx);
      [done..|].
    destruct (spectrum_of_forward_transform noise T H W)
      as (fn & Hfn & Hsnn); [by rewrite Hsn|done..|].
    unfold freq_mix_3d.
    rewrite Hfx, bind_Ok, Hsx, bind_Ok, Hfn, bind_Ok, Hsnn, bind_Ok.
    unfold broadcast_op at 3. by rewrite forward_transform_shape, Hb.
Qed.

Lemma mixer_rejects_bad_shapes_witness :
  let flat := Tensor [2; 2] [1; 2; 3; 4]%R in
  let x := Tensor [1; 2; 3] [1; 2; 3; 4; 5; 6]%R in
  let LPF := Tensor [1; 2; 2] [1; 1; 0; 0]%R in
  freq_mix_3d flat flat LPF = Raise IndexError ∧
  freq_mix_3d x x LPF = Raise RuntimeError.
Proof.
  intros flat x LPF. split.
  - apply (mixer_rejects_bad_shapes flat flat LPF). simpl. lia.
  - apply (mixer_rejects_bad_shapes x x LPF) with (T := 1) (H := 2) (W := 3);
      [reflexivity|reflexivity|lia|lia|lia|reflexivity].
Defined.

(** ** Symmetries of the mixer *)

(** X15. Exchanging [x] and [noise] and replacing the mask by its
    complement [1 - LPF] gives the same result: the mixer treats the low
    pass of [x] and the high pass of [noise] alike. *)
Theorem mixer_swap_with_complement (x noise LPF : tensor R) (T H W : nat) :
  wf LPF → tshape noise = tshape x →
  last3 (tshape x) = Some (T, H, W) → 1 ≤ T → 1 ≤ H → 1 ≤ W →
  broadcast_shapes (tshape x) (tshape LPF) = Some (tshape x) →
  freq_mix_3d noise x (tmap (λ l, 1 - l)%R LPF) = freq_mix_3d x noise LPF.
Proof.
  intros Hl Hsn Hs HT HH HW Hb.
  rewrite (freq_mix_3d_closed x noise LPF T H W) by done.
  rewrite (freq_mix_3d_closed noise x _ T H W);
    [|by apply wf_tmap|done|by rewrite Hsn|done..|by rewrite Hsn].
  f_equal. unfold mix_closed. do 2 f_equal. rewrite Hsn.
  apply tabulate_ext. intros idx Hidx.
  change (tshape (tmap (λ l, 1 - l)%R LPF)) with (tshape LPF).
  rewrite tgetd_tmap_wf by (done || by eapply broadcast_index_valid).
  generalize (tgetd LPF (broadcast_index (tshape LPF) idx)),
    (tgetd (forward_transform x) idx), (tgetd (forward_transform noise) idx).
  intros l u v. complex_eq.
Qed.

Lemma mixer_swap_with_complement_witness :
  let x := Tensor [2; 1; 1; 2] [1; 2; 3; 4]%R in
  let noise := Tensor [2; 1; 1; 2] [5; 6; 7; 8]%R in
  let LPF := Tensor [1; 1; 2] [1 / 4; 3 / 4]%R in
  freq_mix_3d noise x (tmap (λ l, 1 - l)%R LPF) = freq_mix_3d x noise LPF.
Proof.
  intros x noise LPF.
  apply (mixer_swap_with_complement x noise LPF 1 1 2);
    [reflexivity|reflexivity|reflexivity|lia|lia|lia|reflexivity].
Defined.

(** X16. Broadcasting is all the mixer does with the mask: a mask that
    broadcasts to the shape of [x], for instance one of shape (T, H, W), gives
    the same result as that mask expanded to the full shape of [x]
    beforehand. *)
Theorem mixer_mask_broadcast (x noise LPF : tensor R) (T H W : nat) :
  wf LPF → tshape noise = tshape x →
  last3 (tshape x) = Some (T, H, W) → 1 ≤ T → 1 ≤ H → 1 ≤ W →
  broadcast_shapes (tshape x) (tshape LPF) = Some (tshape x) →
  freq_mix_3d x noise (broadcast_to LPF (tshape x)) = freq_mix_3d x noise LPF.
Proof.
  intros Hl Hsn Hs HT HH HW Hb.
  rewrite (freq_mix_3d_closed x noise LPF T H W) by done.
  rewrite (freq_mix_3d_closed x noise _ T H W);
    [|apply wf_tabulate|done..|apply broadcast_shapes_same].
  f_equal. unfold mix_closed. do 2 f_equal.
  apply tabulate_ext. intros idx Hidx.
  change (tshape (broadcast_to LPF (tshape x))) with (tshape x).
  rewrite broadcast_index_same by done.
  unfold broadcast_to. by rewrite tgetd_tabulate.
Qed.

Lemma mixer_mask_broadcast_witness :
  let x := Tensor [2; 1; 1; 2] [1; 2; 3; 4]%R in
  let noise := Tensor [2; 1; 1; 2] [5; 6; 7; 8]%R in
  let LPF := Tensor [1; 1; 2] [1 / 4; 3 / 4]%R in
  broadcast_to LPF (tshape x)
  = Tensor [2; 1; 1; 2] [1 / 4; 3 / 4; 1 / 4; 3 / 4]%R ∧
  freq_mix_3d x noise (broadcast_to LPF (tshape x)) = freq_mix_3d x noise LPF.
Proof.
  intros x noise LPF. split; [reflexivity|].
  apply (mixer_mask_broadcast x noise LPF 1 1 2);
    [reflexivity|reflexivity|reflexivity|lia|lia|lia|reflexivity].
Defined.

(** X17. The mixer is linear in the pair of its inputs: for one mask, mixing
    [a * x + b * x'] with [a * noise + b * noise'] gives [a * y + b * y'],
    where [y] mixes [x] with [noise] and [y'] mixes [x'] with [noise']. *)
Theorem mixer_is_linear (a b : R) (x x' noise noise' LPF : tensor R)
    (T H W : nat) :
  wf x → wf x' → wf noise → wf noise' → wf LPF →
  tshape x' = tshape x → tshape noise = tshape x → tshape noise' = tshape x →
  last3 (tshape x) = Some (T, H, W) → 1 ≤ T → 1 ≤ H → 1 ≤ W →
  broadcast_shapes (tshape x) (tshape LPF) = Some (tshape x) →
  ∃ y y', freq_mix_3d x noise LPF = Ok y ∧
          freq_mix_3d x' noise' LPF = Ok y' ∧
          freq_mix_3d (tlin a b x x') (tlin a b noise noise') LPF
          = Ok (tlin a b y y').
Proof.
  intros Hx Hx' Hn Hn' Hl Hsx' Hsn Hsn' Hs HT HH HW Hb.
  exists (mix_closed x noise LPF), (mix_closed x' noise' LPF).
  split; [by apply (freq_mix_3d_closed x noise LPF T H W)|].
  split.
  { apply (freq_mix_3d_closed x' noise' LPF T H W); try done;
      rewrite ?Hsx'; done. }
  rewrite (freq_mix_3d_closed _ _ LPF T H W) by done.
  by rewrite mix_closed_tlin.
Qed.

Lemma mixer_is_linear_witness :
  let x := Tensor [1; 1; 2] [1; 2]%R in
  let x' := Tensor [1; 1; 2] [3; 4]%R in
  let noise := Tensor [1; 1; 2] [5; 6]%R in
  let noise' := Tensor [1; 1; 2] [7; 8]%R in
  let LPF := Tensor [1; 1; 2] [1 / 4; 3 / 4]%R in
  ∃ y y', freq_mix_3d x noise LPF = Ok y ∧
          freq_mix_3d x' noise' LPF = Ok y' ∧
          freq_mix_3d (tlin 2 3 x x') (tlin 2 3 noise noise') LPF
          = Ok (tlin 2 3 y y').
Proof.
  intros x x' noise noise' LPF.
  apply (mixer_is_linear 2 3 x x' noise noise' LPF 1 1 2);
    [reflexivity|reflexivity|reflexivity|reflexivity|reflexivity|
     reflexivity|reflexivity|reflexivity|reflexivity|lia|lia|lia|
     reflexivity].
Defined.

(** X18. Nothing is lost between the two bands: what [x] mixed with [noise]
    and [noise] mixed with [x] (under one mask) hold together is, element by
    element, [x + noise]. *)
Theorem mixer_splits_the_sum (x noise LPF : tensor R) (T H W : nat) :
  wf x → wf noise → wf LPF → tshape noise = tshape x →
  last3 (tshape x) = Some (T, H, W) → 1 ≤ T → 1 ≤ H → 1 ≤ W →
  broadcast_shapes (tshape x) (tshape LPF) = Some (tshape x) →
  ∃ y1 y2, freq_mix_3d x noise LPF = Ok y1 ∧
           freq_mix_3d noise x LPF = Ok y2 ∧
           ∀ idx, idx ∈ indices (tshape x) →
             (tgetd y1 idx + tgetd y2 idx = tgetd x idx + tgetd noise idx)%R.
Proof.
  intros Hx Hn Hl Hsn Hs HT HH HW Hb.
  exists (mix_closed x noise LPF), (mix_closed noise x LPF).
  split; [by apply (freq_mix_3d_closed x noise LPF T H W)|].
  split.
  { apply (freq_mix_3d_closed noise x LPF T H W); try done;
      rewrite ?Hsn; done. }
  intros idx Hidx.
  pose proof (mix_closed_tlin 1 1 x noise noise x LPF Hx Hn Hn Hx Hsn Hsn
                eq_refl) as Hlin.
  assert (tlin 1 1 noise x = tlin 1 1 x noise) as Hcomm.
  { unfold tlin. rewrite Hsn. apply tabulate_ext. intros; lra. }
  rewrite Hcomm in Hlin.
  rewrite (mix_closed_same (tlin 1 1 x noise) LPF T H W) in Hlin;
    [|apply wf_tabulate|done..].
  apply (f_equal (λ m, tgetd m idx)) in Hlin.
  rewrite !tgetd_tlin in Hlin by (rewrite ?mix_closed_shape; done). lra.
Qed.

Lemma mixer_splits_the_sum_witness :
  let x := Tensor [1; 1; 2] [1; 2]%R in
  let noise := Tensor [1; 1; 2] [5; 6]%R in
  let LPF := Tensor [1; 1; 2] [1 / 4; 3 / 4]%R in
  ∃ y1 y2, freq_mix_3d x noise LPF = Ok y1 ∧
           freq_mix_3d noise x LPF = Ok y2 ∧
           ∀ idx, idx ∈ indices [1; 1; 2] →
             (tgetd y1 idx + tgetd y2 idx = tgetd x idx + tgetd noise idx)%R.
Proof.
  intros x noise LPF.
  apply (mixer_splits_the_sum x noise LPF 1 1 2);
    [reflexivity|reflexivity|reflexivity|reflexivity|reflexivity|lia|lia|lia|
     reflexivity].
Defined.

(** X19. A cutoff of zero hands everything to the noise: for every
    recognised method with d_s = 0 or d_t = 0, mixing with the mask that
    [get_freq_filter] builds for the shape of [x] returns [noise]. *)
Theorem zero_cutoff_mix_returns_noise (x noise : tensor R) (device : string)
    (p : params.t) (T H W : nat) :
  wf x → wf noise → tshape noise = tshape x →
  last3 (tshape x) = Some (T, H, W) → 1 ≤ T → 1 ≤ H → 1 ≤ W →
  params.method p ∈ recognized_methods →
  params.d_s p = 0%R ∨ params.d_t p = 0%R →
  ∃ LPF, get_freq_filter (tshape x) device p = Ok LPF ∧
         freq_mix_3d x noise LPF = Ok noise.
Proof.
  intros Hx Hn Hsn Hs HT HH HW Hm Hz. exists (torch_zeros (tshape x)).
  split; [by apply (get_freq_filter_zero_cutoff _ T H W)|].
  apply (freq_mix_3d_select _ _ _ _ T H W); try done.
  - apply wf_zeros.
  - apply broadcast_shapes_same.
  - intros xs ns ys idx l Hxs Hns Hys Hidx Hget.
    rewrite (spectrum_of_unique _ _ _ Hys Hns).
    apply tget_elem_of in Hget. simpl in Hget.
    apply elem_of_replicate in Hget as [-> _].
    generalize (tgetd xs idx), (tgetd ns idx). intros z w. complex_eq.
Qed.

Lemma zero_cutoff_mix_returns_noise_witness :
  let x := Tensor [1; 1; 2; 2] [1; 2; 3; 4]%R in
  let noise := Tensor [1; 1; 2; 2] [5; 6; 7; 8]%R in
  ∃ LPF, get_freq_filter [1; 1; 2; 2] "cpu"
           (params.Make "ideal" 0 (1 / 4) 4) = Ok LPF ∧
         freq_mix_3d x noise LPF = Ok noise.
Proof.
  intros x noise.
  apply (zero_cutoff_mix_returns_noise x noise "cpu"
           (params.Make "ideal" 0 (1 / 4) 4) 1 2 2);
    [reflexivity|reflexivity|reflexivity|reflexivity|lia|lia|lia| |by left].
  apply recognized_methods_cases. by right; left.
Defined.
